(** * LiteLight: touch gestures, zoom model and gallery navigation

    A shallow embedding of [src/lite-light.js].

    Numbers.  JavaScript numbers that hold coordinates, distances, scales and
    offsets are embedded as real numbers ([R]): [Math.sqrt], [Math.pow],
    [Math.abs], [Math.max] and [Math.min] become [sqrt], [pow], [Rabs],
    [Rmax] and [Rmin]; rounding, NaN and infinities are outside the model.
    Gallery indices are integers ([Z]); the [%] operator on integers is the
    truncating remainder [Z.rem] (the result has the sign of the dividend).

    State.  [touchState] and [zoomState] are the two module-level objects of
    the source; [currentIndex] is the variable captured by the handlers that
    one click on a tagged image creates.  They are gathered in [Viewer]
    together with the part of the viewer's image element that the handlers
    write.  A handler is a function from [Viewer] to [Viewer]; an exception
    raised inside a handler ends the handler and keeps the writes made
    before it.

    Sessions.  Every click on a tagged image creates another set of
    handlers, with its own [currentIndex] and [images], over the same
    module-level objects and the same image element, and nothing but the
    [keydown] listener is ever removed.  A [Viewer] is the state as one
    set of handlers sees it; [reachable] follows that set and lets later
    opens and the other sets act on what is shared.

    Left out: body scroll locking and markup creation; no handler reads
    anything they write.  The preload cache is modelled on its own, since
    no handler reads it either. *)

From Stdlib Require Import Reals Lra ZArith Lia List String Bool Arith.
Import ListNotations.

Open Scope R_scope.

(** ** JavaScript prelude *)

Inductive JsError : Set := TypeError.

(** The outcome of an expression that may raise. *)
Inductive result (A : Type) : Type :=
| Ok (a : A)
| Throw (e : JsError).

Arguments Ok {A} a.
Arguments Throw {A} e.

(** [a < b] on numbers, as a boolean. *)
Definition Rltb (a b : R) : bool := if Rlt_dec a b then true else false.

(** [a > b] on numbers. *)
Definition Rgtb (a b : R) : bool := Rltb b a.

(** [arr[i]] for an integer [i]: [None] stands for [undefined]. *)
Definition js_index {A : Type} (arr : list A) (i : Z) : option A :=
  if (i <? 0)%Z then None else nth_error arr (Z.to_nat i).

(** [arr.findIndex(p)]: the first position whose element satisfies [p],
    [-1] when there is none. *)
Fixpoint findIndex_from {A : Type} (p : A -> bool) (arr : list A) (i : Z) : Z :=
  match arr with
  | [] => (-1)%Z
  | a :: rest => if p a then i else findIndex_from p rest (i + 1)%Z
  end.

Definition findIndex {A : Type} (p : A -> bool) (arr : list A) : Z :=
  findIndex_from p arr 0%Z.

(** [classList.add] and [classList.remove]. *)
Definition classList_add (c : string) (classes : list string) : list string :=
  if existsb (String.eqb c) classes then classes else classes ++ [c].

Definition classList_remove (c : string) (classes : list string) : list string :=
  filter (fun d => negb (String.eqb c d)) classes.

(** ** Data *)

(** A [Touch] of a [TouchList]; only the screen coordinates are read. *)
Record Touch : Type := { screenX : R; screenY : R }.

(** The object literal [{ x, y }] returned by [getTouchCenter]. *)
Record Center : Type := { center_x : R; center_y : R }.

Record TouchState : Type := {
  startX : R;
  startY : R;
  endX : R;
  endY : R;
  initialDistance : R;
  isZooming : bool;
  lastCenterX : R;
  lastCenterY : R
}.

Record ZoomState : Type := {
  scale : R;
  x : R;
  y : R;
  initialScale : R;
  initialX : R;
  initialY : R
}.

(** The module-level initial values. *)
Definition touchState0 : TouchState :=
  {| startX := 0; startY := 0; endX := 0; endY := 0;
     initialDistance := 0; isZooming := false;
     lastCenterX := 0; lastCenterY := 0 |}.

Definition zoomState0 : ZoomState :=
  {| scale := 1; x := 0; y := 0;
     initialScale := 1; initialX := 0; initialY := 0 |}.

Definition ZOOM_TOLERANCE : R := 0.01.
Definition MIN_ZOOM : R := 1.
Definition MAX_ZOOM : R := 5.

(** ** Geometry utilities *)

Definition getTouchDistance (touches : list Touch) : R :=
  if (List.length touches <? 2)%nat then 0
  else
    match nth_error touches 0, nth_error touches 1 with
    | Some touch1, Some touch2 =>
        sqrt ((screenX touch2 - screenX touch1) ^ 2 +
              (screenY touch2 - screenY touch1) ^ 2)
    | _, _ => 0
    end.

(** With an empty list [touches[0]] is [undefined] and reading [screenX]
    from it raises a [TypeError]. *)
Definition getTouchCenter (touches : list Touch) : result Center :=
  if (List.length touches <? 2)%nat then
    match nth_error touches 0 with
    | Some touch => Ok {| center_x := screenX touch; center_y := screenY touch |}
    | None => Throw TypeError
    end
  else
    match nth_error touches 0, nth_error touches 1 with
    | Some touch1, Some touch2 =>
        Ok {| center_x := (screenX touch1 + screenX touch2) / 2;
              center_y := (screenY touch1 + screenY touch2) / 2 |}
    | _, _ => Throw TypeError
    end.

(** ** Zoom model *)

(** The value written to [style.transform]:
    [scale(s) translate(tx px, ty px)]. *)
Record Transform : Type := {
  transform_scale : R;
  translate_x : R;
  translate_y : R
}.

(** The fields of the viewer's [img] element that the handlers write. *)
Record ImageElement : Type := {
  src : option string;
  transform : option Transform;
  transformOrigin : string;
  classList : list string
}.

Definition applyZoomTransform (zs : ZoomState) (imageElement : ImageElement)
  : ImageElement :=
  {| src := src imageElement;
     transform := Some {| transform_scale := scale zs;
                          translate_x := x zs;
                          translate_y := y zs |};
     transformOrigin := "center center";
     classList := classList imageElement |}.

Definition isApproximatelyOne (value : R) : bool :=
  Rltb (Rabs (value - 1)) ZOOM_TOLERANCE.

(** The expression [Math.max(MIN_ZOOM, Math.min(MAX_ZOOM, requested))] of
    [handleTouchMove]. *)
Definition clampScale (requested : R) : R :=
  Rmax MIN_ZOOM (Rmin MAX_ZOOM requested).

(** ** The document *)

(** A DOM node is named by its identity; [===] on nodes is equality of
    identities.  A document lists its elements in document order and gives
    each one's tag name and attributes. *)
Definition Node : Set := nat.

Record Document : Type := {
  elements : list Node;
  tagName : Node -> string;
  getAttribute : Node -> string -> option string
}.

Definition hasAttribute (doc : Document) (el : Node) (name : string) : bool :=
  match getAttribute doc el name with
  | Some _ => true
  | None => false
  end.

Record Config : Type := {
  imageSelector : string;
  imageUrlAttribute : string;
  lightboxClass : string;
  swipeThreshold : R;
  fadeAnimationDuration : R
}.

(** ** The viewer *)

(** The [once] listeners registered for [animationend] on the viewer's
    image: [handleFade], which holds the URL it will display, and the
    listener that removes the fade-in class. *)
Inductive Listener : Type :=
| HandleFade (nextImageUrl : option string)
| FadeInCleanup.

(** What a handler asks of its event, and each call of [navigateToImage]
    with its argument, in the order they happen. *)
Inductive Effect : Type :=
| Navigate (index : Z)
| StopPropagation
| StopImmediatePropagation
| PreventDefault.

Record Viewer : Type := {
  touchState : TouchState;
  zoomState : ZoomState;
  currentIndex : Z;
  lightboxImage : ImageElement;
  animationend : list Listener;
  displayed : bool;
  keydownAttached : bool;
  trace : list Effect
}.

Definition set_touchState (ts : TouchState) (v : Viewer) : Viewer :=
  {| touchState := ts; zoomState := zoomState v;
     currentIndex := currentIndex v; lightboxImage := lightboxImage v;
     animationend := animationend v; displayed := displayed v;
     keydownAttached := keydownAttached v; trace := trace v |}.

Definition set_zoomState (zs : ZoomState) (v : Viewer) : Viewer :=
  {| touchState := touchState v; zoomState := zs;
     currentIndex := currentIndex v; lightboxImage := lightboxImage v;
     animationend := animationend v; displayed := displayed v;
     keydownAttached := keydownAttached v; trace := trace v |}.

Definition set_currentIndex (i : Z) (v : Viewer) : Viewer :=
  {| touchState := touchState v; zoomState := zoomState v;
     currentIndex := i; lightboxImage := lightboxImage v;
     animationend := animationend v; displayed := displayed v;
     keydownAttached := keydownAttached v; trace := trace v |}.

Definition set_lightboxImage (img : ImageElement) (v : Viewer) : Viewer :=
  {| touchState := touchState v; zoomState := zoomState v;
     currentIndex := currentIndex v; lightboxImage := img;
     animationend := animationend v; displayed := displayed v;
     keydownAttached := keydownAttached v; trace := trace v |}.

Definition set_animationend (ls : list Listener) (v : Viewer) : Viewer :=
  {| touchState := touchState v; zoomState := zoomState v;
     currentIndex := currentIndex v; lightboxImage := lightboxImage v;
     animationend := ls; displayed := displayed v;
     keydownAttached := keydownAttached v; trace := trace v |}.

Definition set_open (b : bool) (v : Viewer) : Viewer :=
  {| touchState := touchState v; zoomState := zoomState v;
     currentIndex := currentIndex v; lightboxImage := lightboxImage v;
     animationend := animationend v; displayed := b;
     keydownAttached := b; trace := trace v |}.

Definition emit (e : Effect) (v : Viewer) : Viewer :=
  {| touchState := touchState v; zoomState := zoomState v;
     currentIndex := currentIndex v; lightboxImage := lightboxImage v;
     animationend := animationend v; displayed := displayed v;
     keydownAttached := keydownAttached v; trace := trace v ++ [e] |}.

Definition set_src (url : option string) (img : ImageElement) : ImageElement :=
  {| src := url; transform := transform img;
     transformOrigin := transformOrigin img; classList := classList img |}.

Definition set_classList (cs : list string) (img : ImageElement) : ImageElement :=
  {| src := src img; transform := transform img;
     transformOrigin := transformOrigin img; classList := cs |}.

(** How a handler body ends: normally, or by an exception that leaves the
    state as it was when raised. *)
Inductive Completion : Type :=
| Normal (v : Viewer)
| Abrupt (e : JsError) (v : Viewer).

(** The state an event listener leaves behind, however it ended. *)
Definition after (c : Completion) : Viewer :=
  match c with
  | Normal v => v
  | Abrupt _ v => v
  end.

(** [resetZoom(lightboxImage)]; the [initial*] fields are not written. *)
Definition resetZoom (v : Viewer) : Viewer :=
  let zs := zoomState v in
  let zs' := {| scale := 1; x := 0; y := 0;
                initialScale := initialScale zs;
                initialX := initialX zs;
                initialY := initialY zs |} in
  set_lightboxImage (applyZoomTransform zs' (lightboxImage v))
    (set_zoomState zs' v).

(** ** The handlers created by one click on a tagged image *)

Section Handlers.

Variable config : Config.
Variable doc : Document.

(** [images], the array built from [querySelectorAll] when the viewer was
    opened. *)
Variable images : list Node.

(** [images.length]. *)
Definition count : Z := Z.of_nat (List.length images).

Definition navigateToImage (index : Z) (v : Viewer) : Completion :=
  let v := emit (Navigate index) v in
  let v := set_currentIndex (Z.rem (index + count) count) v in
  match js_index images (currentIndex v) with
  | None => Abrupt TypeError v
  | Some image =>
      let nextImageUrl := getAttribute doc image (imageUrlAttribute config) in
      let v :=
        set_lightboxImage
          (set_classList
             (classList_add "lite-light-fade-out" (classList (lightboxImage v)))
             (lightboxImage v)) v in
      Normal (set_animationend (animationend v ++ [HandleFade nextImageUrl]) v)
  end.

Definition handleTouchStart (touches : list Touch) (v : Viewer) : Viewer :=
  let ts := touchState v in
  let zs := zoomState v in
  if (List.length touches =? 1)%nat then
    match nth_error touches 0 with
    | Some touch =>
        set_zoomState
          {| scale := scale zs; x := x zs; y := y zs;
             initialScale := scale zs;
             initialX := x zs;
             initialY := y zs |}
          (set_touchState
             {| startX := screenX touch;
                startY := screenY touch;
                endX := endX ts; endY := endY ts;
                initialDistance := initialDistance ts;
                isZooming := false;
                lastCenterX := screenX touch;
                lastCenterY := screenY touch |} v)
    | None => v
    end
  else if (List.length touches =? 2)%nat then
    let distance := getTouchDistance touches in
    match getTouchCenter touches with
    | Ok center =>
        set_zoomState
          {| scale := scale zs; x := x zs; y := y zs;
             initialScale := scale zs;
             initialX := x zs;
             initialY := y zs |}
          (set_touchState
             {| startX := startX ts; startY := startY ts;
                endX := endX ts; endY := endY ts;
                initialDistance := distance;
                isZooming := true;
                lastCenterX := center_x center;
                lastCenterY := center_y center |} v)
    | Throw _ =>
        set_touchState
          {| startX := startX ts; startY := startY ts;
             endX := endX ts; endY := endY ts;
             initialDistance := distance;
             isZooming := isZooming ts;
             lastCenterX := lastCenterX ts;
             lastCenterY := lastCenterY ts |} v
    end
  else v.

(** The two-contact branch of [handleTouchMove], after the distance and
    the centre have been computed. *)
Definition pinch (currentDistance : R) (center : Center) (v : Viewer) : Viewer :=
  let ts := touchState v in
  let zs := zoomState v in
  let v :=
    if Rgtb (initialDistance ts) 0 then
      let scaleChange := currentDistance / initialDistance ts in
      let newScale := clampScale (initialScale zs * scaleChange) in
      let zs' :=
        if isApproximatelyOne newScale then
          {| scale := newScale; x := 0; y := 0;
             initialScale := initialScale zs;
             initialX := initialX zs;
             initialY := initialY zs |}
        else
          let deltaX := center_x center - lastCenterX ts in
          let deltaY := center_y center - lastCenterY ts in
          if Rgtb newScale MIN_ZOOM then
            {| scale := newScale;
               x := initialX zs + deltaX / newScale;
               y := initialY zs + deltaY / newScale;
               initialScale := initialScale zs;
               initialX := initialX zs;
               initialY := initialY zs |}
          else
            {| scale := newScale; x := x zs; y := y zs;
               initialScale := initialScale zs;
               initialX := initialX zs;
               initialY := initialY zs |} in
      set_lightboxImage (applyZoomTransform zs' (lightboxImage v))
        (set_zoomState zs' v)
    else v in
  set_touchState
    {| startX := startX ts; startY := startY ts;
       endX := endX ts; endY := endY ts;
       initialDistance := initialDistance ts;
       isZooming := true;
       lastCenterX := center_x center;
       lastCenterY := center_y center |} v.

(** The one-contact branch of [handleTouchMove]. *)
Definition pan (touch : Touch) (v : Viewer) : Viewer :=
  let ts := touchState v in
  let zs := zoomState v in
  let deltaX := screenX touch - lastCenterX ts in
  let deltaY := screenY touch - lastCenterY ts in
  let zs' :=
    {| scale := scale zs;
       x := x zs + deltaX / scale zs;
       y := y zs + deltaY / scale zs;
       initialScale := initialScale zs;
       initialX := initialX zs;
       initialY := initialY zs |} in
  set_touchState
    {| startX := startX ts; startY := startY ts;
       endX := endX ts; endY := endY ts;
       initialDistance := initialDistance ts;
       isZooming := true;
       lastCenterX := screenX touch;
       lastCenterY := screenY touch |}
    (set_lightboxImage (applyZoomTransform zs' (lightboxImage v))
       (set_zoomState zs' v)).

Definition handleTouchMove (touches : list Touch) (v : Viewer) : Viewer :=
  if (List.length touches =? 2)%nat then
    let currentDistance := getTouchDistance touches in
    match getTouchCenter touches with
    | Ok center => pinch currentDistance center v
    | Throw _ => v
    end
  else if (List.length touches =? 1)%nat && Rgtb (scale (zoomState v)) MIN_ZOOM then
    match nth_error touches 0 with
    | Some touch => pan touch v
    | None => v
    end
  else v.

Definition handleTouchEnd (changedTouches touches : list Touch) (v : Viewer)
  : Completion :=
  let allLifted (v : Viewer) : Viewer :=
    if (List.length touches =? 0)%nat then
      let ts := touchState v in
      set_touchState
        {| startX := startX ts; startY := startY ts;
           endX := endX ts; endY := endY ts;
           initialDistance := 0;
           isZooming := false;
           lastCenterX := lastCenterX ts;
           lastCenterY := lastCenterY ts |} v
    else v in
  if (List.length changedTouches =? 1)%nat
     && negb (isZooming (touchState v))
     && (List.length touches =? 0)%nat
     && isApproximatelyOne (scale (zoomState v))
  then
    match nth_error changedTouches 0 with
    | Some touch =>
        let ts := touchState v in
        let ts :=
          {| startX := startX ts; startY := startY ts;
             endX := screenX touch;
             endY := screenY touch;
             initialDistance := initialDistance ts;
             isZooming := isZooming ts;
             lastCenterX := lastCenterX ts;
             lastCenterY := lastCenterY ts |} in
        let v := set_touchState ts v in
        let swipeDistanceX := endX ts - startX ts in
        let swipeDistanceY := endY ts - startY ts in
        if Rgtb (Rabs swipeDistanceX) (Rabs swipeDistanceY)
           && Rgtb (Rabs swipeDistanceX) (swipeThreshold config)
        then
          match navigateToImage
                  (if Rgtb swipeDistanceX 0
                   then currentIndex v - 1
                   else currentIndex v + 1)%Z v with
          | Normal v => Normal (allLifted (emit StopPropagation v))
          | Abrupt e v => Abrupt e v
          end
        else Normal (allLifted v)
    | None => Normal (allLifted v)
    end
  else Normal (allLifted v).

Definition closeLightbox (v : Viewer) : Viewer := set_open false v.

Definition handleKeyboardNav (key : string) (v : Viewer) : Completion :=
  if String.eqb key "ArrowLeft" then
    match navigateToImage (currentIndex v - 1)%Z v with
    | Normal v => Normal (emit PreventDefault v)
    | Abrupt e v => Abrupt e v
    end
  else if String.eqb key "ArrowRight" then
    match navigateToImage (currentIndex v + 1)%Z v with
    | Normal v => Normal (emit PreventDefault v)
    | Abrupt e v => Abrupt e v
    end
  else if String.eqb key "Escape" then
    Normal (emit PreventDefault (closeLightbox v))
  else Normal v.

(** The listener returned by [createNavigationHandler(direction)]. *)
Definition createNavigationHandler (direction : Z) (v : Viewer) : Completion :=
  let v := emit StopPropagation v in
  navigateToImage (currentIndex v + direction)%Z v.

(** One [animationend] listener.  [handleFade] swaps the source, resets
    the zoom and registers the fade-in cleanup. *)
Definition runListener (v : Viewer) (l : Listener) : Viewer :=
  match l with
  | HandleFade nextImageUrl =>
      let v := set_lightboxImage (set_src nextImageUrl (lightboxImage v)) v in
      let v := resetZoom v in
      let img := lightboxImage v in
      let img :=
        set_classList (classList_remove "lite-light-fade-out" (classList img)) img in
      let img :=
        set_classList (classList_add "lite-light-fade-in" (classList img)) img in
      let v := set_lightboxImage img v in
      set_animationend (animationend v ++ [FadeInCleanup]) v
  | FadeInCleanup =>
      let img := lightboxImage v in
      set_lightboxImage
        (set_classList (classList_remove "lite-light-fade-in" (classList img)) img) v
  end.

(** An [animationend] event runs the listeners registered before it, each
    once, in registration order. *)
Definition fireAnimationend (v : Viewer) : Viewer :=
  fold_left runListener (animationend v) (set_animationend [] v).

(** ** Events and reachable states *)

Inductive Event : Type :=
| TouchStart (touches : list Touch)
| TouchMove (touches : list Touch)
| TouchEnd (changedTouches touches : list Touch)
| KeyDown (key : string)
| ClickPrev
| ClickNext
| ClickClose
| ClickBackground
| AnimationEnd.

Definition dispatch (v : Viewer) (e : Event) : Viewer :=
  match e with
  | TouchStart touches => handleTouchStart touches v
  | TouchMove touches => handleTouchMove touches v
  | TouchEnd changedTouches touches => after (handleTouchEnd changedTouches touches v)
  | KeyDown key =>
      if keydownAttached v then after (handleKeyboardNav key v) else v
  | ClickPrev => after (createNavigationHandler (-1) v)
  | ClickNext => after (createNavigationHandler 1 v)
  | ClickClose => closeLightbox (emit StopImmediatePropagation v)
  | ClickBackground => closeLightbox (emit StopImmediatePropagation v)
  | AnimationEnd => fireAnimationend v
  end.

(** The image element of freshly created markup. *)
Definition lightboxImage0 : ImageElement :=
  {| src := None; transform := None; transformOrigin := EmptyString; classList := [] |}.

(** The body of the document click listener after its guard, for the
    clicked element [target]: find it among [images], show its URL, reset
    the zoom and attach the listeners.  [ts] and [zs] are the values of
    the module-level objects at the click, [image] is the viewer's image
    element and [pending] the [animationend] listeners still registered
    on it. *)
Definition openViewer (ts : TouchState) (zs : ZoomState)
           (image : ImageElement) (pending : list Listener)
           (target : Node) : Completion :=
  let currentIndex := findIndex (Nat.eqb target) images in
  let v :=
    {| touchState := ts; zoomState := zs;
       currentIndex := currentIndex; lightboxImage := image;
       animationend := pending; displayed := true;
       keydownAttached := false; trace := [] |} in
  match js_index images currentIndex with
  | None => Abrupt TypeError v
  | Some el =>
      let url := getAttribute doc el (imageUrlAttribute config) in
      let v := set_lightboxImage (set_src url (lightboxImage v)) v in
      let v := resetZoom v in
      let img := lightboxImage v in
      let v :=
        set_lightboxImage
          (set_classList (classList_add "lite-light-fade-in" (classList img)) img) v in
      Normal (set_open true
                (set_animationend (animationend v ++ [FadeInCleanup]) v))
  end.

End Handlers.

(** ** Handler sets and reachable states *)

(** The state of one set of handlers, [own], after another set, [other],
    has acted on what they share: the module-level objects, the image
    element with its listeners, and whether the viewer is displayed.  The
    index, the [keydown] listener and the trace are each set's own. *)
Definition sharing (other own : Viewer) : Viewer :=
  {| touchState := touchState other; zoomState := zoomState other;
     currentIndex := currentIndex own; lightboxImage := lightboxImage other;
     animationend := animationend other; displayed := displayed other;
     keydownAttached := keydownAttached own; trace := trace own |}.

(** Two sets of handlers at the same moment agree on what they share. *)
Definition sameShared (a b : Viewer) : Prop :=
  touchState a = touchState b /\
  zoomState a = zoomState b /\
  lightboxImage a = lightboxImage b /\
  animationend a = animationend b /\
  displayed a = displayed b.

(** The states that the set of handlers created over [images] can be in,
    for one configuration and one document.  The set is created by the
    first click after the page has loaded or by a later click, on the
    shared state that an earlier set has reached.  From then on its own
    handlers run, the handlers of another set (whose index is inside its
    own gallery) run on the shared state, and further clicks open the
    viewer again, normally or not. *)
Inductive reachable (config : Config) (doc : Document)
  : list Node -> Viewer -> Prop :=
| reachable_open (images : list Node) (target : Node) (v : Viewer) :
    openViewer config doc images touchState0 zoomState0 lightboxImage0 []
      target = Normal v ->
    reachable config doc images v
| reachable_dispatch (images : list Node) (v : Viewer) (e : Event) :
    reachable config doc images v ->
    reachable config doc images (dispatch config doc images v e)
| reachable_reopen (others : list Node) (earlier : Viewer)
                   (images : list Node) (target : Node) (v : Viewer) :
    reachable config doc others earlier ->
    openViewer config doc images (touchState earlier) (zoomState earlier)
      (lightboxImage earlier) (animationend earlier) target = Normal v ->
    reachable config doc images v
| reachable_other_dispatch (images : list Node) (v : Viewer)
                           (others : list Node) (other : Viewer) (e : Event) :
    reachable config doc images v ->
    sameShared other v ->
    (0 <= currentIndex other < count others)%Z ->
    reachable config doc images (sharing (dispatch config doc others other e) v)
| reachable_other_open (images : list Node) (v : Viewer)
                       (others : list Node) (target : Node) :
    reachable config doc images v ->
    reachable config doc images
      (sharing
         (after (openViewer config doc others (touchState v) (zoomState v)
                   (lightboxImage v) (animationend v) target)) v).

(** ** The document click listener *)

Section Click.

(** The browser's selector engine: whether an element matches a selector. *)
Variable selectorMatches : Document -> string -> Node -> bool.

Definition querySelectorAll (doc : Document) (selector : string) : list Node :=
  filter (selectorMatches doc selector) (elements doc).

(** [None]: the click is ignored by the guard. *)
Definition onDocumentClick (config : Config) (doc : Document)
           (ts : TouchState) (zs : ZoomState) (image : ImageElement)
           (pending : list Listener) (target : Node) : option Completion :=
  if negb (String.eqb (tagName doc target) "IMG")
     || negb (hasAttribute doc target (imageUrlAttribute config))
  then None
  else
    let images := querySelectorAll doc (imageSelector config) in
    Some (openViewer config doc images ts zs image pending target).

End Click.

(** ** Sample values for concrete runs *)

(** The defaults of [initLiteLight]. *)
Definition defaultConfig : Config :=
  {| imageSelector := "img[data-lightbox]";
     imageUrlAttribute := "data-lightbox";
     lightboxClass := "lite-light";
     swipeThreshold := 50;
     fadeAnimationDuration := 150 |}.

(** A page with three tagged images, nodes 0, 1 and 2, and an image, node 3,
    that carries the URL attribute and a class [plain]. *)
Definition galleryPage : Document :=
  {| elements := [0; 1; 2; 3]%nat;
     tagName := fun _ => "IMG"%string;
     getAttribute := fun el name =>
       if String.eqb name "data-lightbox" then
         Some (if (el <? 3)%nat then "full.jpg" else "other.jpg")%string
       else if String.eqb name "class" then
         (if (el <? 3)%nat then None else Some "plain"%string)
       else None |}.

(** A selector engine that knows the default selector and the selector
    [img[data-lightbox]:not(.plain)]. *)
Definition sampleMatches (doc : Document) (selector : string) (el : Node) : bool :=
  if String.eqb selector "img[data-lightbox]" then
    String.eqb (tagName doc el) "IMG" && hasAttribute doc el "data-lightbox"
  else if String.eqb selector "img[data-lightbox]:not(.plain)" then
    String.eqb (tagName doc el) "IMG" && hasAttribute doc el "data-lightbox"
    && negb (hasAttribute doc el "class")
  else false.

Definition galleryImages : list Node := [0; 1; 2]%nat.

(** The viewer opened on the first image of [galleryPage]. *)
Definition viewer0 : Viewer :=
  after (openViewer defaultConfig galleryPage galleryImages
           touchState0 zoomState0 lightboxImage0 [] 0%nat).

Definition touchAt (sx sy : R) : Touch := {| screenX := sx; screenY := sy |}.

(** The state after a sequence of events. *)
Definition run (config : Config) (doc : Document) (images : list Node)
           (v : Viewer) (events : list Event) : Viewer :=
  fold_left (dispatch config doc images) events v.

(** Two fingers 200 pixels apart spread to 201 pixels, the second finger is
    lifted, and the remaining finger moves. *)
Definition nearRestGesture : list Event :=
  [ TouchStart [touchAt 0 0; touchAt 200 0];
    TouchMove [touchAt 0 0; touchAt 201 0];
    TouchEnd [touchAt 201 0] [touchAt 0 0];
    TouchMove [touchAt 50 0] ].

(** Two fingers 100 pixels apart spread to 200 pixels. *)
Definition spreadGesture : list Event :=
  [ TouchStart [touchAt 100 100; touchAt 200 100];
    TouchMove [touchAt 50 100; touchAt 250 100] ].

(** [defaultConfig] with a selector that leaves out the image of class
    [plain]. *)
Definition plainConfig : Config :=
  {| imageSelector := "img[data-lightbox]:not(.plain)";
     imageUrlAttribute := "data-lightbox";
     lightboxClass := "lite-light";
     swipeThreshold := 50;
     fadeAnimationDuration := 150 |}.

(** The states along [spreadGesture] and [nearRestGesture]. *)
Definition pinchStarted : Viewer :=
  handleTouchStart [touchAt 100 100; touchAt 200 100] viewer0.

Definition zoomedViewer : Viewer :=
  handleTouchMove [touchAt 50 100; touchAt 250 100] pinchStarted.

Definition nearRestViewer : Viewer :=
  handleTouchMove [touchAt 0 0; touchAt 201 0]
    (handleTouchStart [touchAt 0 0; touchAt 200 0] viewer0).

(** One finger put down at (300, 200) on the freshly opened viewer. *)
Definition swipeStarted : Viewer :=
  handleTouchStart [touchAt 300 200] viewer0.

(** [defaultConfig] with a swipe threshold of 20 pixels. *)
Definition lowThresholdConfig : Config :=
  {| imageSelector := "img[data-lightbox]";
     imageUrlAttribute := "data-lightbox";
     lightboxClass := "lite-light";
     swipeThreshold := 20;
     fadeAnimationDuration := 150 |}.

(** The viewer opened again, on the third image, while the fade of a
    "next" pressed in the first session is still pending. *)
Definition reopenedViewer : Viewer :=
  let earlier := dispatch defaultConfig galleryPage galleryImages viewer0 ClickNext in
  after (openViewer defaultConfig galleryPage galleryImages
           (touchState earlier) (zoomState earlier) (lightboxImage earlier)
           (animationend earlier) 2%nat).

(** ** Properties of states *)

(** The scale is within its bounds, and at exactly the minimum scale the
    image is centred. *)
Definition zoomInvariant (zs : ZoomState) : Prop :=
  1 <= scale zs <= 5 /\ (scale zs = 1 -> x zs = 0 /\ y zs = 0).

(** No panning at rest: a scale within tolerance of 1 has zero offsets. *)
Definition centredAtRest (zs : ZoomState) : Prop :=
  isApproximatelyOne (scale zs) = true -> x zs = 0 /\ y zs = 0.

(** The wrap as the specification words it:
    [((requestedIndex % count) + count) % count]. *)
Definition wrapIndex (requestedIndex count : Z) : Z :=
  Z.rem (Z.rem requestedIndex count + count) count.

(** [n] presses of a navigation button with the given direction. *)
Fixpoint press (config : Config) (doc : Document) (images : list Node)
         (direction : Z) (n : nat) (v : Viewer) : Viewer :=
  match n with
  | O => v
  | S m =>
      press config doc images direction m
        (after (createNavigationHandler config doc images direction v))
  end.

(** The arguments of the calls of [navigateToImage] recorded in a trace. *)
Fixpoint navigations (effects : list Effect) : list Z :=
  match effects with
  | [] => []
  | Navigate index :: rest => index :: navigations rest
  | _ :: rest => navigations rest
  end.

(** ** The preload cache *)

(** An [Image] created by [preloadImage]; only its [src] is written. *)
Record PreloadedImage : Type := { image_src : string }.

(** The own properties of the object [preloadedImages], oldest first. *)
Definition Cache : Type := list (string * PreloadedImage).

(** The properties an object literal inherits from [Object.prototype]; all
    of them hold truthy values. *)
Definition objectPrototypeKeys : list string :=
  [ "constructor"; "hasOwnProperty"; "isPrototypeOf"; "propertyIsEnumerable";
    "toLocaleString"; "toString"; "valueOf"; "__proto__";
    "__defineGetter__"; "__defineSetter__";
    "__lookupGetter__"; "__lookupSetter__" ]%string.

(** What [preloadedImages[key]] evaluates to when it is not [undefined]. *)
Inductive CacheEntry : Type :=
| OwnImage (img : PreloadedImage)
| Inherited (key : string).

Fixpoint ownProperty (cache : Cache) (key : string) : option PreloadedImage :=
  match cache with
  | [] => None
  | (k, img) :: rest => if String.eqb key k then Some img else ownProperty rest key
  end.

(** [preloadedImages[key]]: an own property, else an inherited one, else
    [undefined] ([None]). *)
Definition cacheGet (cache : Cache) (key : string) : option CacheEntry :=
  match ownProperty cache key with
  | Some img => Some (OwnImage img)
  | None =>
      if existsb (String.eqb key) objectPrototypeKeys
      then Some (Inherited key) else None
  end.

(** The property key and the [src] that a URL read by [getAttribute]
    becomes: [null] is converted to the string [null]. *)
Definition propertyKey (url : option string) : string :=
  match url with
  | Some s => s
  | None => "null"
  end.

Definition preloadImage (url : option string) (cache : Cache)
  : Cache * CacheEntry :=
  let key := propertyKey url in
  match cacheGet cache key with
  | Some entry => (cache, entry)
  | None =>
      let img := {| image_src := key |} in
      (cache ++ [(key, img)], OwnImage img)
  end.

(** How [preloadAdjacentImages] ends, with the cache it leaves. *)
Inductive PreloadCompletion : Type :=
| PreloadDone (cache : Cache)
| PreloadAbrupt (e : JsError) (cache : Cache).

Definition preloadAdjacentImages (config : Config) (doc : Document)
           (images : list Node) (currentIdx : Z) (cache : Cache)
  : PreloadCompletion :=
  let prevIdx := Z.rem (currentIdx - 1 + count images) (count images) in
  let nextIdx := Z.rem (currentIdx + 1) (count images) in
  match js_index images prevIdx with
  | None => PreloadAbrupt TypeError cache
  | Some previous =>
      let cache :=
        fst (preloadImage (getAttribute doc previous (imageUrlAttribute config))
               cache) in
      match js_index images nextIdx with
      | None => PreloadAbrupt TypeError cache
      | Some next =>
          PreloadDone
            (fst (preloadImage (getAttribute doc next (imageUrlAttribute config))
                    cache))
      end
  end.

(** ** The effective configuration *)

(** The recognised keys of the [options] argument.  [None] is a key that
    is not given; a given key holds a string or a number.  Keys that are
    not recognised, which the spread copies as well, are left out. *)
Record Options : Type := {
  given_imageSelector : option string;
  given_imageUrlAttribute : option string;
  given_lightboxClass : option string;
  given_swipeThreshold : option R;
  given_fadeAnimationDuration : option R
}.

(** [options.key || fallback] for a string: the empty string is falsy. *)
Definition orString (value : option string) (fallback : string) : string :=
  match value with
  | Some s => if String.eqb s EmptyString then fallback else s
  | None => fallback
  end.

(** [options.key || fallback] for a number: zero is falsy. *)
Definition orNumber (value : option R) (fallback : R) : R :=
  match value with
  | Some r => if Req_dec_T r 0 then fallback else r
  | None => fallback
  end.

(** The effect of the trailing [...options] on one key. *)
Definition spread {A : Type} (value : option A) (current : A) : A :=
  match value with
  | Some v => v
  | None => current
  end.

(** The object literal [config] of [initLiteLight]. *)
Definition makeConfig (options : Options) : Config :=
  {| imageSelector :=
       spread (given_imageSelector options)
         (orString (given_imageSelector options) "img[data-lightbox]");
     imageUrlAttribute :=
       spread (given_imageUrlAttribute options)
         (orString (given_imageUrlAttribute options) "data-lightbox");
     lightboxClass :=
       spread (given_lightboxClass options)
         (orString (given_lightboxClass options) "lite-light");
     swipeThreshold :=
       spread (given_swipeThreshold options)
         (orNumber (given_swipeThreshold options) 50);
     fadeAnimationDuration :=
       spread (given_fadeAnimationDuration options)
         (orNumber (given_fadeAnimationDuration options) 150) |}.

(** ** Further properties of states *)

(** The transform written to the image is the one of the zoom state. *)
Definition rendered (v : Viewer) : Prop :=
  transform (lightboxImage v)
  = Some {| transform_scale := scale (zoomState v);
            translate_x := x (zoomState v);
            translate_y := y (zoomState v) |}.

(** The URL held by the [handleFade] listener registered last, if any. *)
Fixpoint lastFade (listeners : list Listener) : option (option string) :=
  match listeners with
  | [] => None
  | HandleFade url :: rest =>
      match lastFade rest with
      | Some later => Some later
      | None => Some url
      end
  | FadeInCleanup :: rest => lastFade rest
  end.

(** The URL that is shown once the pending fades have run. *)
Definition settledSrc (v : Viewer) : option string :=
  match lastFade (animationend v) with
  | Some url => url
  | None => src (lightboxImage v)
  end.

(** The fade classes are backed by listeners that will remove them. *)
Definition fadesBacked (v : Viewer) : Prop :=
  (In "lite-light-fade-in"%string (classList (lightboxImage v)) ->
   animationend v <> []) /\
  (In "lite-light-fade-out"%string (classList (lightboxImage v)) ->
   lastFade (animationend v) <> None).

(** The fade-in cleanups that running these listeners registers: one for
    each [handleFade]. *)
Fixpoint cleanupsFor (listeners : list Listener) : list Listener :=
  match listeners with
  | [] => []
  | HandleFade _ :: rest => FadeInCleanup :: cleanupsFor rest
  | FadeInCleanup :: rest => cleanupsFor rest
  end.

(** What every reachable state keeps of the image element. *)
Definition viewInvariant (v : Viewer) : Prop :=
  fadesBacked v /\ rendered v.

(** ** Basic facts *)

Lemma Rltb_true_iff (a b : R) : Rltb a b = true <-> a < b.
Proof.
  unfold Rltb. destruct (Rlt_dec a b); split; intros; try easy.
Qed.

Lemma Rltb_false_iff (a b : R) : Rltb a b = false <-> b <= a.
Proof.
  unfold Rltb. destruct (Rlt_dec a b); split; intros; try easy; lra.
Qed.

Lemma Rgtb_true_iff (a b : R) : Rgtb a b = true <-> a > b.
Proof. unfold Rgtb. rewrite Rltb_true_iff. lra. Qed.

Lemma Rgtb_false_iff (a b : R) : Rgtb a b = false <-> a <= b.
Proof. unfold Rgtb. apply Rltb_false_iff. Qed.

Lemma isApproximatelyOne_true_iff (value : R) :
  isApproximatelyOne value = true <-> Rabs (value - 1) < 0.01.
Proof. unfold isApproximatelyOne, ZOOM_TOLERANCE. apply Rltb_true_iff. Qed.

Lemma isApproximatelyOne_false_iff (value : R) :
  isApproximatelyOne value = false <-> 0.01 <= Rabs (value - 1).
Proof. unfold isApproximatelyOne, ZOOM_TOLERANCE. apply Rltb_false_iff. Qed.

Lemma isApproximatelyOne_one : isApproximatelyOne 1 = true.
Proof.
  apply isApproximatelyOne_true_iff.
  replace (1 - 1) with 0 by lra. rewrite Rabs_R0. lra.
Qed.

Lemma clampScale_range (requested : R) : 1 <= clampScale requested <= 5.
Proof.
  unfold clampScale, MIN_ZOOM, MAX_ZOOM, Rmax, Rmin.
  destruct (Rle_dec 5 requested);
    destruct (Rle_dec 1 _); lra.
Qed.

Lemma clampScale_inside (requested : R) :
  1 <= requested <= 5 -> clampScale requested = requested.
Proof.
  intros H. unfold clampScale, MIN_ZOOM, MAX_ZOOM, Rmax, Rmin.
  destruct (Rle_dec 5 requested);
    destruct (Rle_dec 1 _); lra.
Qed.

Lemma clampScale_above (requested : R) :
  5 <= requested -> clampScale requested = 5.
Proof.
  intros H. unfold clampScale, MIN_ZOOM, MAX_ZOOM, Rmax, Rmin.
  destruct (Rle_dec 5 requested);
    destruct (Rle_dec 1 _); lra.
Qed.

(** The distance between two contacts on a horizontal line. *)
Lemma getTouchDistance_horizontal (a b c : R) (rest : list Touch) :
  a <= b ->
  getTouchDistance
    ({| screenX := a; screenY := c |} :: {| screenX := b; screenY := c |} :: rest)
  = b - a.
Proof.
  intros Hab. unfold getTouchDistance. simpl.
  replace ((b - a) * ((b - a) * 1) + (c - c) * ((c - c) * 1))
    with ((b - a) ^ 2) by (simpl; lra).
  apply sqrt_pow2. lra.
Qed.

Lemma getTouchDistance_nonneg (touches : list Touch) :
  0 <= getTouchDistance touches.
Proof.
  unfold getTouchDistance.
  destruct (List.length touches <? 2)%nat; [lra|].
  destruct (nth_error touches 0); [|lra].
  destruct (nth_error touches 1); [|lra].
  apply sqrt_pos.
Qed.

(** ** What the handlers leave untouched *)

Section HandlerFacts.

Variable config : Config.
Variable doc : Document.
Variable images : list Node.

Lemma navigateToImage_currentIndex (index : Z) (v : Viewer) :
  currentIndex (after (navigateToImage config doc images index v))
  = Z.rem (index + count images) (count images).
Proof.
  unfold navigateToImage. cbn.
  destruct (js_index images _); reflexivity.
Qed.

Lemma navigateToImage_zoomState (index : Z) (v : Viewer) :
  zoomState (after (navigateToImage config doc images index v)) = zoomState v.
Proof.
  unfold navigateToImage. cbn.
  destruct (js_index images _); reflexivity.
Qed.

Lemma navigateToImage_touchState (index : Z) (v : Viewer) :
  touchState (after (navigateToImage config doc images index v)) = touchState v.
Proof.
  unfold navigateToImage. cbn.
  destruct (js_index images _); reflexivity.
Qed.

Lemma navigateToImage_trace (index : Z) (v : Viewer) :
  trace (after (navigateToImage config doc images index v))
  = trace v ++ [Navigate index].
Proof.
  unfold navigateToImage. cbn.
  destruct (js_index images _); reflexivity.
Qed.

Lemma handleTouchEnd_zoomState (changedTouches touches : list Touch) (v : Viewer) :
  zoomState (after (handleTouchEnd config doc images changedTouches touches v))
  = zoomState v.
Proof.
  unfold handleTouchEnd.
  destruct (_ && _ && _ && _).
  - destruct (nth_error changedTouches 0).
    + destruct (_ && _).
      * match goal with
        | |- context [navigateToImage ?c ?d ?i ?k ?w] =>
            pose proof (navigateToImage_zoomState k w) as Hz;
            destruct (navigateToImage c d i k w)
        end; cbn in *; destruct (List.length touches =? 0)%nat; cbn; exact Hz.
      * cbn. destruct (List.length touches =? 0)%nat; reflexivity.
    + cbn. destruct (List.length touches =? 0)%nat; reflexivity.
  - cbn. destruct (List.length touches =? 0)%nat; reflexivity.
Qed.

Lemma handleKeyboardNav_zoomState (key : string) (v : Viewer) :
  zoomState (after (handleKeyboardNav config doc images key v)) = zoomState v.
Proof.
  unfold handleKeyboardNav.
  repeat match goal with
  | |- context [if String.eqb ?a ?b then _ else _] => destruct (String.eqb a b)
  end; try reflexivity;
  match goal with
  | |- context [navigateToImage ?c ?d ?i ?k ?w] =>
      pose proof (navigateToImage_zoomState k w) as Hz;
      destruct (navigateToImage c d i k w)
  end; cbn in *; exact Hz.
Qed.

Lemma createNavigationHandler_zoomState (direction : Z) (v : Viewer) :
  zoomState (after (createNavigationHandler config doc images direction v))
  = zoomState v.
Proof.
  unfold createNavigationHandler. rewrite navigateToImage_zoomState. reflexivity.
Qed.

Lemma handleTouchStart_offsets (touches : list Touch) (v : Viewer) :
  let zs := zoomState (handleTouchStart touches v) in
  scale zs = scale (zoomState v) /\ x zs = x (zoomState v) /\ y zs = y (zoomState v).
Proof.
  unfold handleTouchStart.
  destruct (List.length touches =? 1)%nat.
  - destruct (nth_error touches 0); cbn; auto.
  - destruct (List.length touches =? 2)%nat; [|cbn; auto].
    destruct (getTouchCenter touches); cbn; auto.
Qed.

(** ** Invariants of the zoom state *)

Lemma resetZoom_zoomInvariant (v : Viewer) :
  zoomInvariant (zoomState (resetZoom v)).
Proof. unfold zoomInvariant. cbn. split; [lra | auto]. Qed.

Lemma pinch_zoomInvariant (currentDistance : R) (center : Center) (v : Viewer) :
  zoomInvariant (zoomState v) ->
  zoomInvariant (zoomState (pinch currentDistance center v)).
Proof.
  intros Hinv. unfold pinch. cbn.
  destruct (Rgtb (initialDistance (touchState v)) 0); [|exact Hinv].
  set (newScale := clampScale _).
  pose proof (clampScale_range
                (initialScale (zoomState v) *
                 (currentDistance / initialDistance (touchState v)))) as Hr.
  fold newScale in Hr.
  destruct (isApproximatelyOne newScale) eqn:Hone; cbn.
  - split; [exact Hr | auto].
  - assert (newScale <> 1) as Hne.
    { intros Heq. rewrite Heq, isApproximatelyOne_one in Hone. discriminate. }
    destruct (Rgtb newScale MIN_ZOOM); cbn; split; try exact Hr;
      intros Heq; contradiction.
Qed.

Lemma pan_zoomInvariant (touch : Touch) (v : Viewer) :
  scale (zoomState v) > MIN_ZOOM ->
  zoomInvariant (zoomState v) ->
  zoomInvariant (zoomState (pan touch v)).
Proof.
  unfold MIN_ZOOM. intros Hgt [Hr _]. unfold pan, zoomInvariant. cbn.
  split; [exact Hr | intros Heq; lra].
Qed.

Lemma handleTouchMove_zoomInvariant (touches : list Touch) (v : Viewer) :
  zoomInvariant (zoomState v) ->
  zoomInvariant (zoomState (handleTouchMove touches v)).
Proof.
  intros Hinv. unfold handleTouchMove.
  destruct (List.length touches =? 2)%nat.
  - destruct (getTouchCenter touches); [|exact Hinv].
    apply pinch_zoomInvariant, Hinv.
  - destruct (List.length touches =? 1)%nat; cbv [andb]; [|exact Hinv].
    destruct (Rgtb (scale (zoomState v)) MIN_ZOOM) eqn:Hgt; [|exact Hinv].
    destruct (nth_error touches 0); [|exact Hinv].
    apply pan_zoomInvariant; [|exact Hinv].
    apply Rgtb_true_iff, Hgt.
Qed.

Lemma runListener_zoomInvariant (v : Viewer) (l : Listener) :
  zoomInvariant (zoomState v) -> zoomInvariant (zoomState (runListener v l)).
Proof.
  intros Hinv. destruct l; cbn; [|exact Hinv].
  unfold zoomInvariant. cbn. split; [lra | auto].
Qed.

Lemma fireAnimationend_zoomInvariant (v : Viewer) :
  zoomInvariant (zoomState v) -> zoomInvariant (zoomState (fireAnimationend v)).
Proof.
  unfold fireAnimationend.
  assert (forall ls w, zoomInvariant (zoomState w) ->
                       zoomInvariant (zoomState (fold_left runListener ls w))) as Hfold.
  { induction ls as [|l ls IH]; intros w Hw; cbn; [exact Hw|].
    apply IH, runListener_zoomInvariant, Hw. }
  intros Hinv. apply Hfold. exact Hinv.
Qed.

Lemma dispatch_zoomInvariant (v : Viewer) (e : Event) :
  zoomInvariant (zoomState v) -> zoomInvariant (zoomState (dispatch config doc images v e)).
Proof.
  intros Hinv. destruct e; cbn.
  - destruct (handleTouchStart_offsets touches v) as (Hs & Hx & Hy).
    unfold zoomInvariant in *. rewrite Hs, Hx, Hy. exact Hinv.
  - apply handleTouchMove_zoomInvariant, Hinv.
  - rewrite handleTouchEnd_zoomState. exact Hinv.
  - destruct (keydownAttached v); [|exact Hinv].
    rewrite handleKeyboardNav_zoomState. exact Hinv.
  - rewrite createNavigationHandler_zoomState. exact Hinv.
  - rewrite createNavigationHandler_zoomState. exact Hinv.
  - exact Hinv.
  - exact Hinv.
  - apply fireAnimationend_zoomInvariant, Hinv.
Qed.

Lemma openViewer_zoomInvariant (ts : TouchState) (zs : ZoomState)
      (image : ImageElement) (pending : list Listener) (target : Node)
      (v : Viewer) :
  openViewer config doc images ts zs image pending target = Normal v ->
  zoomInvariant (zoomState v).
Proof.
  unfold openViewer. destruct (js_index images _); [|discriminate].
  intros H. injection H as <-. unfold zoomInvariant. cbn. split; [lra | auto].
Qed.

(** An open that raises has written nothing but the display. *)
Lemma openViewer_zoomState (ts : TouchState) (zs : ZoomState)
      (image : ImageElement) (pending : list Listener) (target : Node) :
  zoomInvariant zs ->
  zoomInvariant
    (zoomState (after (openViewer config doc images ts zs image pending target))).
Proof.
  intros Hinv.
  destruct (openViewer config doc images ts zs image pending target)
    as [v | e v] eqn:Hopen.
  - eapply openViewer_zoomInvariant, Hopen.
  - unfold openViewer in Hopen. destruct (js_index images _); [discriminate|].
    injection Hopen as _ <-. exact Hinv.
Qed.

End HandlerFacts.

Lemma reachable_zoomInvariant (config : Config) (doc : Document)
      (images : list Node) (v : Viewer) :
  reachable config doc images v -> zoomInvariant (zoomState v).
Proof.
  induction 1 as [images target v Hopen
                 | images v e _ IH
                 | others earlier images target v _ _ Hopen
                 | images v others other e _ IH Hshared _
                 | images v others target _ IH].
  - eapply openViewer_zoomInvariant, Hopen.
  - apply dispatch_zoomInvariant, IH.
  - eapply openViewer_zoomInvariant, Hopen.
  - cbn [zoomState sharing]. apply dispatch_zoomInvariant.
    destruct Hshared as (_ & -> & _). exact IH.
  - cbn [zoomState sharing]. apply openViewer_zoomState, IH.
Qed.

(** ** Running events *)

Lemma reachable_run (config : Config) (doc : Document) (images : list Node)
      (events : list Event) (v : Viewer) :
  reachable config doc images v ->
  reachable config doc images (run config doc images v events).
Proof.
  revert v. induction events as [|e events IH]; intros v Hv; cbn.
  - exact Hv.
  - apply IH. apply reachable_dispatch. exact Hv.
Qed.

Lemma reachable_viewer0 : reachable defaultConfig galleryPage galleryImages viewer0.
Proof. apply reachable_open with (target := 0%nat). reflexivity. Qed.

Lemma navigations_app (l1 l2 : list Effect) :
  navigations (l1 ++ l2) = navigations l1 ++ navigations l2.
Proof.
  induction l1 as [|e l1 IH]; cbn; [reflexivity|].
  destruct e; cbn; rewrite IH; reflexivity.
Qed.

(** ** Scale bounds *)

(** C8.  The scale stays within its bounds: every clamped value lies in
    [1, 5], [resetZoom] sets the scale to exactly 1, and every reachable
    state has [1 <= scale <= 5]. *)
Theorem scale_within_bounds :
  (forall s : R, 1 <= clampScale s <= 5) /\
  (forall v : Viewer, scale (zoomState (resetZoom v)) = 1) /\
  (forall (config : Config) (doc : Document) (images : list Node) (v : Viewer),
      reachable config doc images v -> 1 <= scale (zoomState v) <= 5).
Proof.
  split; [exact clampScale_range|].
  split; [reflexivity|].
  intros config doc images v Hv.
  apply (reachable_zoomInvariant config doc images v Hv).
Qed.

Lemma scale_within_bounds_witness :
  reachable defaultConfig galleryPage galleryImages
    (run defaultConfig galleryPage galleryImages viewer0 spreadGesture) /\
  1 <= scale (zoomState
                (run defaultConfig galleryPage galleryImages viewer0 spreadGesture)) <= 5.
Proof.
  split.
  - apply reachable_run, reachable_viewer0.
  - apply (proj2 (proj2 scale_within_bounds) defaultConfig galleryPage galleryImages).
    apply reachable_run, reachable_viewer0.
Defined.

(** ** Geometry with fewer than two contacts *)

(** C4, as the code has it.  With fewer than two contacts the distance is 0;
    with exactly one contact the centre is that contact, unchanged; with no
    contact there is no point to return and the centre raises a
    [TypeError]. *)
Theorem geometry_fewer_than_two (touches : list Touch) :
  (List.length touches < 2)%nat ->
  getTouchDistance touches = 0 /\
  (forall touch : Touch,
      touches = [touch] ->
      getTouchCenter touches
      = Ok {| center_x := screenX touch; center_y := screenY touch |}) /\
  (touches = [] -> getTouchCenter touches = Throw TypeError).
Proof.
  intros Hlen. repeat split.
  - unfold getTouchDistance.
    apply Nat.ltb_lt in Hlen. rewrite Hlen. reflexivity.
  - intros touch ->. reflexivity.
  - intros ->. reflexivity.
Qed.

Lemma geometry_fewer_than_two_witness :
  getTouchDistance [touchAt 30 40] = 0 /\
  getTouchCenter [touchAt 30 40] = Ok {| center_x := 30; center_y := 40 |}.
Proof.
  destruct (geometry_fewer_than_two [touchAt 30 40]) as (Hd & Hc & _).
  - cbn. lia.
  - split; [exact Hd | exact (Hc (touchAt 30 40) eq_refl)].
Defined.

(** C4 as stated fails with no contact: the centre of an empty contact list
    is not a point. *)
Lemma centre_of_no_contact_raises :
  (List.length (@nil Touch) < 2)%nat /\
  getTouchDistance [] = 0 /\
  getTouchCenter [] = Throw TypeError /\
  ~ (forall touches : list Touch,
        (List.length touches < 2)%nat ->
        exists c : Center, getTouchCenter touches = Ok c).
Proof.
  repeat split.
  - cbn. lia.
  - intros H. destruct (H [] ltac:(cbn; lia)) as [c Hc]. discriminate Hc.
Qed.

(** ** Navigation *)

Lemma rem_wrap_in_range (index n : Z) :
  (0 < n)%Z -> (- n <= index)%Z ->
  (0 <= Z.rem (index + n) n < n)%Z.
Proof.
  intros Hn Hi. rewrite Z.rem_mod_nonneg by lia.
  apply Z.mod_pos_bound. exact Hn.
Qed.

Lemma rem_wrap_wrapIndex (index n : Z) :
  (0 < n)%Z -> (- n <= index)%Z ->
  Z.rem (index + n) n = wrapIndex index n.
Proof.
  intros Hn Hi. unfold wrapIndex.
  destruct (Z.le_gt_cases 0 index) as [Hnonneg | Hneg].
  - rewrite (Z.rem_mod_nonneg index n) by lia.
    pose proof (Z.mod_pos_bound index n Hn) as Hb.
    rewrite !Z.rem_mod_nonneg by lia.
    replace (index + n)%Z with (index + 1 * n)%Z by lia.
    replace (index mod n + n)%Z with (index mod n + 1 * n)%Z by lia.
    rewrite !Z.mod_add by lia. rewrite Z.mod_mod by lia. reflexivity.
  - destruct (Z.eq_dec index (- n)) as [-> | Hne].
    + rewrite Z.rem_opp_l by lia. rewrite Z.rem_same by lia.
      replace (- n + n)%Z with 0%Z by lia.
      change (- 0 + n)%Z with n. rewrite Z.rem_same by lia.
      apply Z.rem_0_l. lia.
    + replace index with (- (- index))%Z at 2 by lia.
      rewrite Z.rem_opp_l by lia.
      rewrite (Z.rem_small (- index) n) by lia.
      replace (- - index)%Z with index by lia. reflexivity.
Qed.

Lemma openViewer_index_in_range (config : Config) (doc : Document)
      (images : list Node) (ts : TouchState) (zs : ZoomState)
      (image : ImageElement) (pending : list Listener) (target : Node)
      (v : Viewer) :
  openViewer config doc images ts zs image pending target = Normal v ->
  exists el : Node, js_index images (currentIndex v) = Some el.
Proof.
  unfold openViewer.
  destruct (js_index images _) as [el|] eqn:Hidx; [|discriminate].
  intros H. injection H as <-. exists el. exact Hidx.
Qed.

Lemma js_index_Some_range {A : Type} (arr : list A) (i : Z) (a : A) :
  js_index arr i = Some a -> (0 <= i < Z.of_nat (List.length arr))%Z.
Proof.
  unfold js_index. destruct (Z.ltb_spec i 0); [discriminate|].
  intros Hnth.
  assert (Z.to_nat i < List.length arr)%nat as Hlt.
  { apply nth_error_Some. rewrite Hnth. discriminate. }
  lia.
Qed.

Lemma navigateToImage_in_range (config : Config) (doc : Document)
      (images : list Node) (index : Z) (v : Viewer) :
  (0 < count images)%Z -> (- count images <= index)%Z ->
  (0 <= currentIndex (after (navigateToImage config doc images index v))
   < count images)%Z.
Proof.
  intros Hn Hi. rewrite navigateToImage_currentIndex.
  apply rem_wrap_in_range; assumption.
Qed.

Lemma dispatch_index_in_range (config : Config) (doc : Document)
      (images : list Node) (v : Viewer) (e : Event) :
  (0 <= currentIndex v < count images)%Z ->
  (0 <= currentIndex (dispatch config doc images v e) < count images)%Z.
Proof.
  intros Hv. destruct e; cbn.
  - unfold handleTouchStart.
    destruct (List.length touches =? 1)%nat.
    + destruct (nth_error touches 0); exact Hv.
    + destruct (List.length touches =? 2)%nat; [|exact Hv].
      destruct (getTouchCenter touches); exact Hv.
  - unfold handleTouchMove.
    destruct (List.length touches =? 2)%nat.
    + destruct (getTouchCenter touches); [|exact Hv].
      unfold pinch. destruct (Rgtb _ _); exact Hv.
    + destruct (_ && _); [|exact Hv].
      destruct (nth_error touches 0); exact Hv.
  - unfold handleTouchEnd.
    destruct (_ && _ && _ && _).
    + destruct (nth_error changedTouches 0).
      * destruct (_ && _).
        -- match goal with
           | |- context [navigateToImage ?c ?d ?i ?k ?w] =>
               pose proof (navigateToImage_in_range c d i k w) as Hr;
               destruct (navigateToImage c d i k w)
           end; cbn in *;
           destruct (List.length touches =? 0)%nat; cbn; apply Hr;
             try lia; destruct (Rgtb _ _); lia.
        -- cbn. destruct (List.length touches =? 0)%nat; exact Hv.
      * cbn. destruct (List.length touches =? 0)%nat; exact Hv.
    + cbn. destruct (List.length touches =? 0)%nat; exact Hv.
  - destruct (keydownAttached v); [|exact Hv].
    unfold handleKeyboardNav.
    repeat match goal with
    | |- context [if String.eqb ?a ?b then _ else _] => destruct (String.eqb a b)
    end; try exact Hv;
    match goal with
    | |- context [navigateToImage ?c ?d ?i ?k ?w] =>
        pose proof (navigateToImage_in_range c d i k w) as Hr;
        destruct (navigateToImage c d i k w)
    end; cbn in *; apply Hr; lia.
  - unfold createNavigationHandler.
    apply navigateToImage_in_range; cbn; lia.
  - unfold createNavigationHandler.
    apply navigateToImage_in_range; cbn; lia.
  - exact Hv.
  - exact Hv.
  - unfold fireAnimationend.
    assert (forall ls w, currentIndex (fold_left runListener ls w) = currentIndex w)
      as Hfold.
    { induction ls as [|l ls IH]; intros w; cbn; [reflexivity|].
      rewrite IH. destruct l; reflexivity. }
    rewrite Hfold. exact Hv.
Qed.

Lemma reachable_index_in_range (config : Config) (doc : Document)
      (images : list Node) (v : Viewer) :
  reachable config doc images v ->
  (0 <= currentIndex v < count images)%Z.
Proof.
  induction 1 as [images target v Hopen
                 | images v e _ IH
                 | others earlier images target v _ _ Hopen
                 | images v others other e _ IH _ _
                 | images v others target _ IH].
  - destruct (openViewer_index_in_range _ _ _ _ _ _ _ _ _ Hopen) as [el Hel].
    apply js_index_Some_range in Hel. exact Hel.
  - apply dispatch_index_in_range. exact IH.
  - destruct (openViewer_index_in_range _ _ _ _ _ _ _ _ _ Hopen) as [el Hel].
    apply js_index_Some_range in Hel. exact Hel.
  - exact IH.
  - exact IH.
Qed.

(** C3, as the code has it.  With a positive image count and a requested
    index not below [-count], [navigateToImage] stores
    [(index + count) % count]; this value equals the double-modulo
    expression of the specification and lies in [0, count).  The handlers
    request only [currentIndex - 1] and [currentIndex + 1] from a current
    index that is itself in [0, count), so every request they make is in
    that range. *)
Theorem navigate_wraps_index (config : Config) (doc : Document)
        (images : list Node) (index : Z) (v : Viewer) :
  (0 < count images)%Z ->
  (- count images <= index)%Z ->
  let stored := currentIndex (after (navigateToImage config doc images index v)) in
  stored = Z.rem (index + count images) (count images) /\
  stored = wrapIndex index (count images) /\
  (0 <= stored < count images)%Z /\
  (reachable config doc images v ->
   (- count images <= currentIndex v - 1)%Z /\
   (- count images <= currentIndex v + 1)%Z).
Proof.
  intros Hn Hi stored. subst stored.
  rewrite navigateToImage_currentIndex.
  split; [reflexivity|].
  split; [apply rem_wrap_wrapIndex; assumption|].
  split; [apply rem_wrap_in_range; assumption|].
  intros Hv. apply reachable_index_in_range in Hv. lia.
Qed.

Lemma navigate_wraps_index_witness :
  currentIndex
    (after (navigateToImage defaultConfig galleryPage galleryImages (-1) viewer0))
  = 2%Z /\
  wrapIndex (-1) 3 = 2%Z.
Proof.
  destruct (navigate_wraps_index defaultConfig galleryPage galleryImages (-1) viewer0)
    as (Hstored & Hwrap & _).
  - reflexivity.
  - cbn. lia.
  - split; [exact Hstored | reflexivity].
Defined.

(** C3 as stated fails below [-count]: with three images a request for
    index -7 stores -1, where the double-modulo expression gives 2. *)
Lemma navigate_below_minus_count :
  let stored :=
    currentIndex
      (after (navigateToImage defaultConfig galleryPage galleryImages (-7) viewer0)) in
  count galleryImages = 3%Z /\
  stored = (-1)%Z /\
  wrapIndex (-7) (count galleryImages) = 2%Z /\
  stored <> wrapIndex (-7) (count galleryImages) /\
  ~ (0 <= stored < count galleryImages)%Z.
Proof.
  cbv zeta. rewrite navigateToImage_currentIndex.
  repeat split; try reflexivity.
  - intros H. discriminate H.
  - cbn. lia.
Qed.

(** ** Full wrap *)

Lemma press_index (config : Config) (doc : Document) (images : list Node)
      (direction : Z) (n : nat) (v : Viewer) :
  (0 < count images)%Z ->
  (direction = 1 \/ direction = -1)%Z ->
  (0 <= currentIndex v < count images)%Z ->
  currentIndex (press config doc images direction n v)
  = ((currentIndex v + direction * Z.of_nat n) mod count images)%Z.
Proof.
  intros Hn Hd. revert v.
  induction n as [|n IH]; intros v Hv.
  - cbn [press]. replace (direction * Z.of_nat 0)%Z with 0%Z by lia.
    rewrite Z.add_0_r. symmetry. apply Z.mod_small. exact Hv.
  - cbn [press].
    assert (currentIndex
              (after (createNavigationHandler config doc images direction v))
            = ((currentIndex v + direction) mod count images)%Z) as Hstep.
    { unfold createNavigationHandler. rewrite navigateToImage_currentIndex.
      cbn [currentIndex emit].
      rewrite Z.rem_mod_nonneg by lia.
      rewrite <- (Z.mul_1_l (count images)) at 1.
      apply Z.mod_add. lia. }
    rewrite IH.
    + rewrite Hstep. rewrite Zplus_mod_idemp_l. f_equal. lia.
    + rewrite Hstep. apply Z.mod_pos_bound. exact Hn.
Qed.

(** C9.  A full wrap returns to the starting index: from any index in
    [0, count), navigating by a delta of [count] in one request, by [count]
    presses of "next", or by [count] presses of "previous", stores the
    starting index again. *)
Theorem full_wrap_round_trip (config : Config) (doc : Document)
        (images : list Node) (v : Viewer) :
  (0 < count images)%Z ->
  (0 <= currentIndex v < count images)%Z ->
  currentIndex
    (after (navigateToImage config doc images (currentIndex v + count images) v))
  = currentIndex v /\
  currentIndex (press config doc images 1 (List.length images) v) = currentIndex v /\
  currentIndex (press config doc images (-1) (List.length images) v) = currentIndex v.
Proof.
  intros Hn Hv. repeat split.
  - rewrite navigateToImage_currentIndex.
    rewrite Z.rem_mod_nonneg by lia.
    replace (currentIndex v + count images + count images)%Z
      with (currentIndex v + 2 * count images)%Z by lia.
    rewrite Z.mod_add by lia. apply Z.mod_small. exact Hv.
  - rewrite press_index by (auto; lia).
    fold (count images).
    rewrite Z.mod_add by lia. apply Z.mod_small. exact Hv.
  - rewrite press_index by (auto; lia).
    fold (count images).
    rewrite Z.mod_add by lia. apply Z.mod_small. exact Hv.
Qed.

Lemma full_wrap_round_trip_witness :
  currentIndex
    (after (navigateToImage defaultConfig galleryPage galleryImages
              (currentIndex viewer0 + 3) viewer0)) = 0%Z /\
  currentIndex (press defaultConfig galleryPage galleryImages 1 3 viewer0) = 0%Z /\
  currentIndex (press defaultConfig galleryPage galleryImages (-1) 3 viewer0) = 0%Z.
Proof.
  apply (full_wrap_round_trip defaultConfig galleryPage galleryImages viewer0).
  - reflexivity.
  - cbn. lia.
Defined.

(** ** Touch moves *)

Lemma getTouchCenter_two (touch1 touch2 : Touch) :
  getTouchCenter [touch1; touch2]
  = Ok {| center_x := (screenX touch1 + screenX touch2) / 2;
          center_y := (screenY touch1 + screenY touch2) / 2 |}.
Proof. reflexivity. Qed.

Lemma length_two {A : Type} (l : list A) :
  List.length l = 2%nat -> exists a b : A, l = [a; b].
Proof.
  destruct l as [|a [|b [|c l]]]; try discriminate.
  intros _. exists a, b. reflexivity.
Qed.

Lemma handleTouchMove_two (touch1 touch2 : Touch) (v : Viewer) :
  handleTouchMove [touch1; touch2] v
  = pinch (getTouchDistance [touch1; touch2])
      {| center_x := (screenX touch1 + screenX touch2) / 2;
         center_y := (screenY touch1 + screenY touch2) / 2 |} v.
Proof. reflexivity. Qed.

Lemma handleTouchMove_one_zoomed (touch : Touch) (v : Viewer) :
  scale (zoomState v) > 1 ->
  handleTouchMove [touch] v = pan touch v.
Proof.
  intros Hgt. unfold handleTouchMove. cbn [List.length Nat.eqb andb].
  unfold MIN_ZOOM. rewrite (proj2 (Rgtb_true_iff _ _) Hgt). reflexivity.
Qed.

Lemma handleTouchMove_one_at_minimum (touch : Touch) (v : Viewer) :
  scale (zoomState v) <= 1 ->
  handleTouchMove [touch] v = v.
Proof.
  intros Hle. unfold handleTouchMove. cbn [List.length Nat.eqb andb].
  unfold MIN_ZOOM. rewrite (proj2 (Rgtb_false_iff _ _) Hle). reflexivity.
Qed.

Lemma handleTouchMove_other (touches : list Touch) (v : Viewer) :
  List.length touches <> 1%nat -> List.length touches <> 2%nat ->
  handleTouchMove touches v = v.
Proof.
  intros H1 H2. unfold handleTouchMove.
  apply Nat.eqb_neq in H1, H2. rewrite H1, H2. reflexivity.
Qed.

Lemma handleTouchStart_other (touches : list Touch) (v : Viewer) :
  List.length touches <> 1%nat -> List.length touches <> 2%nat ->
  handleTouchStart touches v = v.
Proof.
  intros H1 H2. unfold handleTouchStart.
  apply Nat.eqb_neq in H1, H2. rewrite H1, H2. reflexivity.
Qed.

Lemma pinch_scale (currentDistance : R) (center : Center) (v : Viewer) :
  initialDistance (touchState v) > 0 ->
  scale (zoomState (pinch currentDistance center v))
  = clampScale (initialScale (zoomState v)
                * (currentDistance / initialDistance (touchState v))).
Proof.
  intros Hpos. unfold pinch.
  rewrite (proj2 (Rgtb_true_iff _ _) Hpos).
  cbn [zoomState set_touchState set_lightboxImage set_zoomState].
  destruct (isApproximatelyOne _); [reflexivity|].
  destruct (Rgtb _ _); reflexivity.
Qed.

Lemma pinch_skipped (currentDistance : R) (center : Center) (v : Viewer) :
  initialDistance (touchState v) <= 0 ->
  zoomState (pinch currentDistance center v) = zoomState v /\
  lightboxImage (pinch currentDistance center v) = lightboxImage v.
Proof.
  intros Hle. unfold pinch.
  rewrite (proj2 (Rgtb_false_iff _ _) Hle). split; reflexivity.
Qed.

Lemma pinch_centredAtRest (currentDistance : R) (center : Center) (v : Viewer) :
  centredAtRest (zoomState v) ->
  centredAtRest (zoomState (pinch currentDistance center v)).
Proof.
  intros Hinv. unfold pinch.
  destruct (Rgtb (initialDistance (touchState v)) 0); [|exact Hinv].
  cbn [zoomState set_touchState set_lightboxImage set_zoomState].
  unfold centredAtRest.
  destruct (isApproximatelyOne (clampScale _)) eqn:Hone.
  - cbn. auto.
  - destruct (Rgtb _ _); cbn [scale]; rewrite Hone; discriminate.
Qed.

(** C6.  On a two-contact move, a positive stored pinch distance makes the
    new scale [clamp(initialScale * currentDistance / initialDistance)]
    within [1, 5]: from distance 100 and scale 1, distance 200 gives 2 and
    distance 1000 gives 5.  With a stored distance of 0 the computation is
    skipped: the zoom state and the rendered transform stay as they were. *)
Theorem pinch_move_scale (touches : list Touch) (v : Viewer) :
  List.length touches = 2%nat ->
  let d0 := initialDistance (touchState v) in
  let s0 := initialScale (zoomState v) in
  let d := getTouchDistance touches in
  let v' := handleTouchMove touches v in
  (d0 > 0 ->
   scale (zoomState v') = clampScale (s0 * d / d0) /\
   1 <= scale (zoomState v') <= 5) /\
  (d0 = 100 -> s0 = 1 -> d = 200 -> scale (zoomState v') = 2) /\
  (d0 = 100 -> s0 = 1 -> d = 1000 -> scale (zoomState v') = 5) /\
  (d0 = 0 ->
   zoomState v' = zoomState v /\ lightboxImage v' = lightboxImage v).
Proof.
  intros Hlen d0 s0 d v'.
  destruct (length_two touches Hlen) as (touch1 & touch2 & ->).
  subst v'. rewrite handleTouchMove_two. fold d.
  assert (forall a b c : R, a * b / c = a * (b / c)) as Hassoc
    by (intros; unfold Rdiv; ring).
  split; [|split; [|split]].
  - intros Hpos. rewrite pinch_scale by exact Hpos. fold d0 s0.
    rewrite Hassoc. split; [reflexivity | apply clampScale_range].
  - intros Hd0 Hs0 Hd. rewrite pinch_scale by (fold d0; lra). fold d0 s0.
    rewrite Hd0, Hs0, Hd. rewrite clampScale_inside by lra. lra.
  - intros Hd0 Hs0 Hd. rewrite pinch_scale by (fold d0; lra). fold d0 s0.
    rewrite Hd0, Hs0, Hd. apply clampScale_above. lra.
  - intros Hd0. apply pinch_skipped. fold d0. lra.
Qed.

Lemma handleTouchStart_two (touch1 touch2 : Touch) (v : Viewer) :
  touchState (handleTouchStart [touch1; touch2] v)
  = {| startX := startX (touchState v); startY := startY (touchState v);
       endX := endX (touchState v); endY := endY (touchState v);
       initialDistance := getTouchDistance [touch1; touch2];
       isZooming := true;
       lastCenterX := (screenX touch1 + screenX touch2) / 2;
       lastCenterY := (screenY touch1 + screenY touch2) / 2 |} /\
  zoomState (handleTouchStart [touch1; touch2] v)
  = {| scale := scale (zoomState v); x := x (zoomState v); y := y (zoomState v);
       initialScale := scale (zoomState v);
       initialX := x (zoomState v);
       initialY := y (zoomState v) |}.
Proof. split; reflexivity. Qed.

Lemma pinch_touchState (currentDistance : R) (center : Center) (v : Viewer) :
  touchState (pinch currentDistance center v)
  = {| startX := startX (touchState v); startY := startY (touchState v);
       endX := endX (touchState v); endY := endY (touchState v);
       initialDistance := initialDistance (touchState v);
       isZooming := true;
       lastCenterX := center_x center;
       lastCenterY := center_y center |}.
Proof. reflexivity. Qed.

Lemma pinch_near_rest (currentDistance : R) (center : Center) (v : Viewer) :
  initialDistance (touchState v) > 0 ->
  isApproximatelyOne
    (clampScale (initialScale (zoomState v)
                 * (currentDistance / initialDistance (touchState v)))) = true ->
  x (zoomState (pinch currentDistance center v)) = 0 /\
  y (zoomState (pinch currentDistance center v)) = 0.
Proof.
  intros Hpos Hone. unfold pinch.
  rewrite (proj2 (Rgtb_true_iff _ _) Hpos).
  cbn [zoomState set_touchState set_lightboxImage set_zoomState].
  rewrite Hone. split; reflexivity.
Qed.

Lemma pinch_zoomed (currentDistance : R) (center : Center) (v : Viewer) :
  initialDistance (touchState v) > 0 ->
  let newScale :=
    clampScale (initialScale (zoomState v)
                * (currentDistance / initialDistance (touchState v))) in
  isApproximatelyOne newScale = false ->
  x (zoomState (pinch currentDistance center v))
  = initialX (zoomState v)
    + (center_x center - lastCenterX (touchState v)) / newScale /\
  y (zoomState (pinch currentDistance center v))
  = initialY (zoomState v)
    + (center_y center - lastCenterY (touchState v)) / newScale.
Proof.
  intros Hpos newScale Hone. unfold pinch.
  rewrite (proj2 (Rgtb_true_iff _ _) Hpos).
  cbn [zoomState set_touchState set_lightboxImage set_zoomState].
  fold newScale. rewrite Hone.
  assert (newScale > MIN_ZOOM) as Hgt.
  { pose proof (clampScale_range
                  (initialScale (zoomState v)
                   * (currentDistance / initialDistance (touchState v)))) as Hr.
    fold newScale in Hr.
    apply isApproximatelyOne_false_iff in Hone.
    rewrite Rabs_pos_eq in Hone by lra. unfold MIN_ZOOM. lra. }
  rewrite (proj2 (Rgtb_true_iff _ _) Hgt). split; reflexivity.
Qed.

Lemma handleTouchEnd_fingers_remain (config : Config) (doc : Document)
      (images : list Node) (changedTouches touches : list Touch) (v : Viewer) :
  touches <> [] ->
  handleTouchEnd config doc images changedTouches touches v = Normal v.
Proof.
  intros Hne. unfold handleTouchEnd.
  assert ((List.length touches =? 0)%nat = false) as Hlen.
  { destruct touches; [contradiction | reflexivity]. }
  rewrite Hlen. rewrite andb_false_r. reflexivity.
Qed.

(** C7.  A one-contact move while the scale exceeds 1 adds the movement
    since the last centre, divided by the scale, to the current offset;
    the scale is kept, the last centre becomes the contact and the gesture
    is marked as zooming.  At scale 2 a movement of (20, 0) changes the
    offset by exactly (10, 0).  The rendered transform carries the stored
    scale and offset unchanged. *)
Theorem pan_accumulates_offset (touch : Touch) (v : Viewer) :
  scale (zoomState v) > 1 ->
  let zs := zoomState v in
  let ts := touchState v in
  let deltaX := screenX touch - lastCenterX ts in
  let deltaY := screenY touch - lastCenterY ts in
  let v' := handleTouchMove [touch] v in
  x (zoomState v') = x zs + deltaX / scale zs /\
  y (zoomState v') = y zs + deltaY / scale zs /\
  scale (zoomState v') = scale zs /\
  (scale zs = 2 -> deltaX = 20 -> deltaY = 0 ->
   x (zoomState v') - x zs = 10 /\ y (zoomState v') - y zs = 0) /\
  transform (lightboxImage v')
  = Some {| transform_scale := scale (zoomState v');
            translate_x := x (zoomState v');
            translate_y := y (zoomState v') |} /\
  lastCenterX (touchState v') = screenX touch /\
  lastCenterY (touchState v') = screenY touch /\
  isZooming (touchState v') = true.
Proof.
  intros Hgt zs ts deltaX deltaY v'. subst v'.
  rewrite handleTouchMove_one_zoomed by exact Hgt.
  unfold pan. cbn. fold zs ts deltaX deltaY.
  split; [reflexivity|]. split; [reflexivity|]. split; [reflexivity|].
  split; [|repeat split; reflexivity].
  intros Hscale HdX HdY. rewrite Hscale, HdX, HdY. split; lra.
Qed.

(** ** The sample gestures, step by step *)

Lemma pinchStarted_distance : initialDistance (touchState pinchStarted) = 100.
Proof.
  unfold pinchStarted.
  rewrite (proj1 (handleTouchStart_two _ _ _)). cbn [initialDistance].
  unfold touchAt. rewrite getTouchDistance_horizontal by lra. lra.
Qed.

Lemma pinchStarted_centre :
  lastCenterX (touchState pinchStarted) = 150 /\
  lastCenterY (touchState pinchStarted) = 100.
Proof.
  unfold pinchStarted.
  rewrite (proj1 (handleTouchStart_two _ _ _)). cbn. lra.
Qed.

Lemma pinchStarted_zoomState : zoomState pinchStarted = zoomState0.
Proof. reflexivity. Qed.

Lemma spread_distance :
  getTouchDistance [touchAt 50 100; touchAt 250 100] = 200.
Proof. unfold touchAt. rewrite getTouchDistance_horizontal by lra. lra. Qed.

Lemma zoomedViewer_scale : scale (zoomState zoomedViewer) = 2.
Proof.
  unfold zoomedViewer. rewrite handleTouchMove_two.
  rewrite pinch_scale by (rewrite pinchStarted_distance; lra).
  rewrite pinchStarted_distance, pinchStarted_zoomState, spread_distance.
  cbn [initialScale zoomState0].
  rewrite clampScale_inside by lra. lra.
Qed.

Lemma zoomedViewer_centre :
  lastCenterX (touchState zoomedViewer) = 150 /\
  lastCenterY (touchState zoomedViewer) = 100.
Proof.
  unfold zoomedViewer. rewrite handleTouchMove_two, pinch_touchState.
  cbn. lra.
Qed.

Lemma pinch_move_scale_witness :
  scale (zoomState (handleTouchMove [touchAt 50 100; touchAt 250 100] pinchStarted))
  = 2.
Proof.
  apply (pinch_move_scale [touchAt 50 100; touchAt 250 100] pinchStarted eq_refl).
  - exact pinchStarted_distance.
  - reflexivity.
  - exact spread_distance.
Defined.

Lemma pan_accumulates_offset_witness :
  let v' := handleTouchMove [touchAt 170 100] zoomedViewer in
  x (zoomState v') - x (zoomState zoomedViewer) = 10 /\
  y (zoomState v') - y (zoomState zoomedViewer) = 0.
Proof.
  assert (scale (zoomState zoomedViewer) > 1) as Hgt
    by (rewrite zoomedViewer_scale; lra).
  destruct (pan_accumulates_offset (touchAt 170 100) zoomedViewer Hgt)
    as (_ & _ & _ & Hten & _).
  apply Hten.
  - exact zoomedViewer_scale.
  - rewrite (proj1 zoomedViewer_centre). cbn. lra.
  - rewrite (proj2 zoomedViewer_centre). cbn. lra.
Defined.

(** ** No panning at rest *)

Lemma pan_scale (touch : Touch) (v : Viewer) :
  scale (zoomState (pan touch v)) = scale (zoomState v).
Proof. reflexivity. Qed.

Lemma handleTouchMove_centredAtRest (touches : list Touch) (v : Viewer) :
  (List.length touches = 1%nat -> ~ (1 < scale (zoomState v) < 1.01)) ->
  centredAtRest (zoomState v) ->
  centredAtRest (zoomState (handleTouchMove touches v)).
Proof.
  intros Hout Hinv.
  destruct (Nat.eq_dec (List.length touches) 2) as [Htwo | Hnot2].
  - destruct (length_two touches Htwo) as (touch1 & touch2 & ->).
    rewrite handleTouchMove_two. apply pinch_centredAtRest, Hinv.
  - destruct (Nat.eq_dec (List.length touches) 1) as [Hone | Hnot1].
    + specialize (Hout Hone).
      destruct touches as [|touch [|? ?]]; try discriminate.
      destruct (Rle_or_lt (scale (zoomState v)) 1) as [Hle | Hgt].
      * rewrite handleTouchMove_one_at_minimum by exact Hle. exact Hinv.
      * rewrite handleTouchMove_one_zoomed by lra.
        unfold centredAtRest. rewrite pan_scale. intros Hrest.
        apply isApproximatelyOne_true_iff in Hrest.
        rewrite Rabs_pos_eq in Hrest by lra. lra.
    + rewrite handleTouchMove_other by assumption. exact Hinv.
Qed.

(** C1, as the code has it.  In every reachable state a scale of exactly 1
    has both offsets 0.  A two-contact move that recomputes the scale leaves
    both offsets 0 whenever the new scale is within tolerance of 1.  Every
    touch move keeps "within tolerance of 1 implies zero offsets", except a
    one-contact move made while the scale is strictly between 1 and 1.01. *)
Theorem offsets_zero_at_rest :
  (forall (config : Config) (doc : Document) (images : list Node) (v : Viewer),
      reachable config doc images v ->
      scale (zoomState v) = 1 ->
      x (zoomState v) = 0 /\ y (zoomState v) = 0) /\
  (forall (touches : list Touch) (v : Viewer),
      List.length touches = 2%nat ->
      initialDistance (touchState v) > 0 ->
      centredAtRest (zoomState (handleTouchMove touches v))) /\
  (forall (touches : list Touch) (v : Viewer),
      (List.length touches = 1%nat -> ~ (1 < scale (zoomState v) < 1.01)) ->
      centredAtRest (zoomState v) ->
      centredAtRest (zoomState (handleTouchMove touches v))).
Proof.
  split; [|split].
  - intros config doc images v Hv.
    apply (reachable_zoomInvariant config doc images v Hv).
  - intros touches v Hlen Hpos.
    destruct (length_two touches Hlen) as (touch1 & touch2 & ->).
    rewrite handleTouchMove_two. intros Hrest.
    rewrite pinch_scale in Hrest by exact Hpos.
    apply pinch_near_rest; assumption.
  - exact handleTouchMove_centredAtRest.
Qed.

Lemma nearRestViewer_scale : scale (zoomState nearRestViewer) = 1.005.
Proof.
  unfold nearRestViewer. rewrite handleTouchMove_two.
  assert (initialDistance
            (touchState (handleTouchStart [touchAt 0 0; touchAt 200 0] viewer0))
          = 200) as Hd.
  { rewrite (proj1 (handleTouchStart_two _ _ _)). cbn [initialDistance].
    unfold touchAt. rewrite getTouchDistance_horizontal by lra. lra. }
  rewrite pinch_scale by (rewrite Hd; lra).
  rewrite Hd. unfold touchAt at 1 2.
  rewrite getTouchDistance_horizontal by lra.
  rewrite (proj2 (handleTouchStart_two _ _ _)). cbn [initialScale].
  change (scale (zoomState viewer0)) with 1.
  rewrite clampScale_inside by lra. lra.
Qed.

Lemma nearRestViewer_centre : lastCenterX (touchState nearRestViewer) = 100.5.
Proof.
  unfold nearRestViewer. rewrite handleTouchMove_two, pinch_touchState.
  cbn. lra.
Qed.

Lemma nearRestViewer_centred : centredAtRest (zoomState nearRestViewer).
Proof.
  unfold nearRestViewer.
  apply handleTouchMove_centredAtRest; [discriminate|].
  unfold centredAtRest. intros _.
  rewrite (proj2 (handleTouchStart_two _ _ _)). cbn. auto.
Qed.

Lemma offsets_zero_at_rest_witness :
  centredAtRest
    (zoomState (handleTouchMove [touchAt 0 0; touchAt 201 0]
                  (handleTouchStart [touchAt 0 0; touchAt 200 0] viewer0))) /\
  centredAtRest
    (zoomState (handleTouchMove [touchAt 170 100] zoomedViewer)).
Proof.
  destruct offsets_zero_at_rest as (_ & Hpinch & Hmove).
  split.
  - apply Hpinch; [reflexivity|].
    rewrite (proj1 (handleTouchStart_two _ _ _)). cbn [initialDistance].
    unfold touchAt. rewrite getTouchDistance_horizontal by lra. lra.
  - apply Hmove.
    + intros _. rewrite zoomedViewer_scale. lra.
    + unfold centredAtRest. intros Hrest.
      rewrite zoomedViewer_scale in Hrest.
      apply isApproximatelyOne_true_iff in Hrest.
      rewrite Rabs_pos_eq in Hrest by lra. lra.
Defined.

(** C1 as stated fails on a one-contact move just above the minimum scale:
    after a pinch from 200 to 201 pixels the scale is 1.005, within
    tolerance of 1, and the remaining finger then pans the image off
    centre. *)
Lemma pan_near_rest_leaves_centre :
  let v := run defaultConfig galleryPage galleryImages viewer0 nearRestGesture in
  reachable defaultConfig galleryPage galleryImages v /\
  v = handleTouchMove [touchAt 50 0] nearRestViewer /\
  centredAtRest (zoomState nearRestViewer) /\
  isApproximatelyOne (scale (zoomState v)) = true /\
  x (zoomState v) <> 0 /\
  ~ centredAtRest (zoomState v).
Proof.
  cbv zeta.
  assert (run defaultConfig galleryPage galleryImages viewer0 nearRestGesture
          = handleTouchMove [touchAt 50 0] nearRestViewer) as Hrun.
  { unfold run, nearRestGesture. cbn [fold_left dispatch].
    rewrite handleTouchEnd_fingers_remain by discriminate. reflexivity. }
  assert (scale (zoomState nearRestViewer) > 1) as Hgt
    by (rewrite nearRestViewer_scale; lra).
  assert (isApproximatelyOne
            (scale (zoomState (handleTouchMove [touchAt 50 0] nearRestViewer)))
          = true) as Hrest.
  { rewrite handleTouchMove_one_zoomed by exact Hgt.
    rewrite pan_scale, nearRestViewer_scale.
    apply isApproximatelyOne_true_iff. rewrite Rabs_pos_eq; lra. }
  assert (x (zoomState (handleTouchMove [touchAt 50 0] nearRestViewer)) <> 0)
    as Hx.
  { rewrite handleTouchMove_one_zoomed by exact Hgt.
    unfold pan. cbn [x zoomState set_touchState set_lightboxImage set_zoomState].
    rewrite nearRestViewer_centre, nearRestViewer_scale.
    destruct (nearRestViewer_centred) as [Hx0 _].
    { apply isApproximatelyOne_true_iff. rewrite nearRestViewer_scale.
      rewrite Rabs_pos_eq; lra. }
    rewrite Hx0. cbn [screenX touchAt]. lra. }
  split; [apply reachable_run, reachable_viewer0|].
  rewrite Hrun.
  split; [reflexivity|].
  split; [exact nearRestViewer_centred|].
  split; [exact Hrest|].
  split; [exact Hx|].
  intros Hc. destruct (Hc Hrest) as [Hx0 _]. exact (Hx Hx0).
Qed.

(** ** Contact counts *)

(** C2, as the code has it.  A touch start or touch move is handled as a
    pinch when it carries exactly two contacts: the start stores the pinch
    distance and the centre, snapshots the zoom state and sets the zooming
    flag; the move runs the pinch update and sets the flag.  An event with
    three or more contacts, like one with none, leaves the state as it
    was. *)
Theorem pinch_takes_exactly_two (touches : list Touch) (v : Viewer) :
  (List.length touches = 2%nat ->
   exists center : Center,
     getTouchCenter touches = Ok center /\
     touchState (handleTouchStart touches v)
     = {| startX := startX (touchState v); startY := startY (touchState v);
          endX := endX (touchState v); endY := endY (touchState v);
          initialDistance := getTouchDistance touches;
          isZooming := true;
          lastCenterX := center_x center;
          lastCenterY := center_y center |} /\
     zoomState (handleTouchStart touches v)
     = {| scale := scale (zoomState v);
          x := x (zoomState v);
          y := y (zoomState v);
          initialScale := scale (zoomState v);
          initialX := x (zoomState v);
          initialY := y (zoomState v) |} /\
     handleTouchMove touches v = pinch (getTouchDistance touches) center v /\
     isZooming (touchState (handleTouchMove touches v)) = true) /\
  (List.length touches <> 1%nat -> List.length touches <> 2%nat ->
   handleTouchStart touches v = v /\ handleTouchMove touches v = v).
Proof.
  split.
  - intros Hlen. destruct (length_two touches Hlen) as (touch1 & touch2 & ->).
    eexists. split; [apply getTouchCenter_two|].
    repeat split.
  - intros H1 H2. split.
    + apply handleTouchStart_other; assumption.
    + apply handleTouchMove_other; assumption.
Qed.

Lemma pinch_takes_exactly_two_witness :
  isZooming (touchState (handleTouchMove [touchAt 50 100; touchAt 250 100] pinchStarted))
  = true /\
  handleTouchMove [touchAt 50 100; touchAt 250 100; touchAt 0 0] pinchStarted
  = pinchStarted.
Proof.
  split.
  - destruct (proj1 (pinch_takes_exactly_two
                       [touchAt 50 100; touchAt 250 100] pinchStarted) eq_refl)
      as (center & _ & _ & _ & _ & Hflag).
    exact Hflag.
  - apply (proj2 (pinch_takes_exactly_two
                    [touchAt 50 100; touchAt 250 100; touchAt 0 0] pinchStarted));
      discriminate.
Defined.

(** C2 as stated fails with a third contact: the same two fingers spread
    from 100 to 200 pixels double the scale, but with a third finger down
    the move is ignored, and a touch start with three contacts does not
    set the zooming flag. *)
Lemma third_contact_is_ignored :
  let two := [touchAt 50 100; touchAt 250 100] in
  let three := [touchAt 50 100; touchAt 250 100; touchAt 0 0] in
  scale (zoomState (handleTouchMove two pinchStarted)) = 2 /\
  scale (zoomState (handleTouchMove three pinchStarted)) = 1 /\
  isZooming (touchState (handleTouchStart two viewer0)) = true /\
  isZooming (touchState (handleTouchStart three viewer0)) = false /\
  handleTouchMove three pinchStarted <> handleTouchMove two pinchStarted.
Proof.
  cbv zeta.
  assert (scale (zoomState
                   (handleTouchMove [touchAt 50 100; touchAt 250 100] pinchStarted))
          = 2) as Htwo by exact zoomedViewer_scale.
  assert (handleTouchMove [touchAt 50 100; touchAt 250 100; touchAt 0 0] pinchStarted
          = pinchStarted) as Hthree by reflexivity.
  split; [exact Htwo|].
  split; [rewrite Hthree; reflexivity|].
  split; [reflexivity|].
  split; [reflexivity|].
  intros Heq. rewrite <- Heq, Hthree, pinchStarted_zoomState in Htwo.
  cbn in Htwo. lra.
Qed.

(** ** Swipe on release *)

Lemma navigations_snoc (effects : list Effect) (index : Z) :
  navigations (effects ++ [Navigate index]) = navigations effects ++ [index].
Proof. rewrite navigations_app. reflexivity. Qed.

(** The release of the only finger, not zooming, at rest scale: what
    [handleTouchEnd] does with the displacement. *)
Lemma handleTouchEnd_release (config : Config) (doc : Document)
      (images : list Node) (touch : Touch) (v : Viewer) :
  isZooming (touchState v) = false ->
  isApproximatelyOne (scale (zoomState v)) = true ->
  let dX := screenX touch - startX (touchState v) in
  let dY := screenY touch - startY (touchState v) in
  let v' := after (handleTouchEnd config doc images [touch] [] v) in
  if Rgtb (Rabs dX) (Rabs dY) && Rgtb (Rabs dX) (swipeThreshold config) then
    navigations (trace v')
    = navigations (trace v)
      ++ [if Rgtb dX 0 then currentIndex v - 1 else currentIndex v + 1]%Z /\
    currentIndex v'
    = Z.rem ((if Rgtb dX 0 then currentIndex v - 1 else currentIndex v + 1)
             + count images) (count images)
  else
    navigations (trace v') = navigations (trace v) /\
    currentIndex v' = currentIndex v.
Proof.
  intros Hflag Hrest dX dY v'. subst v'. unfold handleTouchEnd.
  cbn [List.length Nat.eqb nth_error]. rewrite Hflag, Hrest.
  cbn [negb andb endX endY startX startY touchState set_touchState currentIndex].
  fold dX dY.
  destruct (Rgtb (Rabs dX) (Rabs dY) && Rgtb (Rabs dX) (swipeThreshold config)).
  - match goal with
    | |- context [navigateToImage ?c ?d ?i ?k ?w] =>
        pose proof (navigateToImage_trace c d i k w) as Htrace;
        pose proof (navigateToImage_currentIndex c d i k w) as Hindex;
        destruct (navigateToImage c d i k w) as [w' | e w']
    end; cbn in Htrace, Hindex; cbn; rewrite ?navigations_app, Htrace;
      rewrite navigations_snoc; cbn; rewrite ?app_nil_r; split;
      try reflexivity; exact Hindex.
  - cbn. split; reflexivity.
Qed.

(** C5.  When exactly one contact is released, none remains, the zooming
    flag is clear and the scale is within tolerance of 1, navigation fires
    exactly when [|dX| > |dY|] and [|dX| > swipeThreshold]: to
    [currentIndex - 1] when [dX > 0] and to [currentIndex + 1] otherwise.
    When either condition fails nothing is navigated and the index is
    kept. *)
Theorem swipe_release_navigates (config : Config) (doc : Document)
        (images : list Node) (touch : Touch) (v : Viewer) :
  isZooming (touchState v) = false ->
  isApproximatelyOne (scale (zoomState v)) = true ->
  let dX := screenX touch - startX (touchState v) in
  let dY := screenY touch - startY (touchState v) in
  let v' := after (handleTouchEnd config doc images [touch] [] v) in
  (Rabs dX > Rabs dY -> Rabs dX > swipeThreshold config -> dX > 0 ->
   navigations (trace v') = navigations (trace v) ++ [currentIndex v - 1]%Z /\
   currentIndex v' = Z.rem (currentIndex v - 1 + count images) (count images)) /\
  (Rabs dX > Rabs dY -> Rabs dX > swipeThreshold config -> dX <= 0 ->
   navigations (trace v') = navigations (trace v) ++ [currentIndex v + 1]%Z /\
   currentIndex v' = Z.rem (currentIndex v + 1 + count images) (count images)) /\
  (~ (Rabs dX > Rabs dY /\ Rabs dX > swipeThreshold config) ->
   navigations (trace v') = navigations (trace v) /\
   currentIndex v' = currentIndex v) /\
  ((exists target : Z,
       navigations (trace v') = navigations (trace v) ++ [target])
   <-> Rabs dX > Rabs dY /\ Rabs dX > swipeThreshold config).
Proof.
  intros Hflag Hrest dX dY v'.
  pose proof (handleTouchEnd_release config doc images touch v Hflag Hrest) as Hrel.
  cbv zeta in Hrel. fold dX dY v' in Hrel.
  destruct (Rgtb (Rabs dX) (Rabs dY)) eqn:Hh;
    destruct (Rgtb (Rabs dX) (swipeThreshold config)) eqn:Ht;
    cbn [andb] in Hrel;
    try apply Rgtb_true_iff in Hh; try apply Rgtb_false_iff in Hh;
    try apply Rgtb_true_iff in Ht; try apply Rgtb_false_iff in Ht.
  1: { destruct Hrel as [Hnav Hidx].
       split; [|split; [|split; [|split]]].
       - intros _ _ Hpos.
         rewrite (proj2 (Rgtb_true_iff _ _) Hpos) in Hnav, Hidx. auto.
       - intros _ _ Hneg.
         rewrite (proj2 (Rgtb_false_iff _ _) Hneg) in Hnav, Hidx. auto.
       - intros Hnot. exfalso. apply Hnot. split; assumption.
       - intros _. split; assumption.
       - intros _. eexists. exact Hnav. }
  all: destruct Hrel as [Hnav Hidx];
    (split; [|split; [|split; [|split]]]);
    [ intros; lra | intros; lra | intros _; split; assumption
    | intros [target Htarget]; rewrite Hnav in Htarget;
      apply (f_equal (@List.length Z)) in Htarget;
      rewrite length_app in Htarget; cbn in Htarget; lia
    | intros [? ?]; lra ].
Qed.

Lemma swipeStarted_at_rest :
  isZooming (touchState swipeStarted) = false /\
  isApproximatelyOne (scale (zoomState swipeStarted)) = true.
Proof. split; [reflexivity | exact isApproximatelyOne_one]. Qed.

Lemma swipe_release_navigates_witness :
  navigations
    (trace (after (handleTouchEnd defaultConfig galleryPage galleryImages
                     [touchAt 200 200] [] swipeStarted)))
  = navigations (trace swipeStarted) ++ [currentIndex swipeStarted + 1]%Z /\
  navigations
    (trace (after (handleTouchEnd defaultConfig galleryPage galleryImages
                     [touchAt 270 200] [] swipeStarted)))
  = navigations (trace swipeStarted) /\
  navigations
    (trace (after (handleTouchEnd lowThresholdConfig galleryPage galleryImages
                     [touchAt 340 260] [] swipeStarted)))
  = navigations (trace swipeStarted).
Proof.
  destruct swipeStarted_at_rest as [Hflag Hrest].
  split; [|split].
  - apply (swipe_release_navigates defaultConfig galleryPage galleryImages
             (touchAt 200 200) swipeStarted Hflag Hrest);
      cbn; try split_Rabs; lra.
  - apply (swipe_release_navigates defaultConfig galleryPage galleryImages
             (touchAt 270 200) swipeStarted Hflag Hrest).
    cbn. intros [_ Hthr]. revert Hthr. split_Rabs; lra.
  - apply (swipe_release_navigates lowThresholdConfig galleryPage galleryImages
             (touchAt 340 260) swipeStarted Hflag Hrest).
    cbn. intros [Hdom _]. revert Hdom. split_Rabs; lra.
Defined.

(** ** Opening the viewer *)

Lemma findIndex_from_absent (target : Node) (images : list Node) (i : Z) :
  ~ In target images -> findIndex_from (Nat.eqb target) images i = (-1)%Z.
Proof.
  revert i. induction images as [|el images IH]; intros i Hnot; cbn.
  - reflexivity.
  - destruct (Nat.eqb_spec target el) as [-> | Hne].
    + exfalso. apply Hnot. left. reflexivity.
    + apply IH. intros Hin. apply Hnot. right. exact Hin.
Qed.

Lemma findIndex_from_present (target : Node) (images : list Node) (i : Z) :
  In target images ->
  exists k : nat,
    findIndex_from (Nat.eqb target) images i = (i + Z.of_nat k)%Z /\
    nth_error images k = Some target.
Proof.
  revert i. induction images as [|el images IH]; intros i Hin; [destruct Hin|].
  cbn. destruct (Nat.eqb_spec target el) as [-> | Hne].
  - exists 0%nat. split; [lia | reflexivity].
  - destruct Hin as [Heq | Hin]; [congruence|].
    destruct (IH (i + 1)%Z Hin) as (k & Hk & Hnth).
    exists (S k). split; [lia | exact Hnth].
Qed.

Lemma js_index_of_nat {A : Type} (arr : list A) (k : nat) :
  js_index arr (Z.of_nat k) = nth_error arr k.
Proof.
  unfold js_index. destruct (Z.ltb_spec (Z.of_nat k) 0); [lia|].
  rewrite Nat2Z.id. reflexivity.
Qed.

(** C10.  For a click that passes the guard (an [IMG] carrying the URL
    attribute), the open sequence finds its image only when the clicked
    element is among those selected by [imageSelector].  An element that
    does not match the selector is not among them; then [findIndex] yields
    -1, [images[-1]] is absent and the listener ends with a [TypeError].
    For a clicked element that is selected, the index found is that of the
    element and the viewer opens. *)
Theorem open_requires_selected_target
        (selectorMatches : Document -> string -> Node -> bool)
        (config : Config) (doc : Document)
        (ts : TouchState) (zs : ZoomState) (image : ImageElement)
        (pending : list Listener) (target : Node) :
  tagName doc target = "IMG"%string ->
  hasAttribute doc target (imageUrlAttribute config) = true ->
  let images := querySelectorAll selectorMatches doc (imageSelector config) in
  let outcome :=
    onDocumentClick selectorMatches config doc ts zs image pending target in
  (selectorMatches doc (imageSelector config) target = false ->
   ~ In target images) /\
  (~ In target images ->
   findIndex (Nat.eqb target) images = (-1)%Z /\
   js_index images (-1) = None /\
   exists v : Viewer,
     outcome = Some (Abrupt TypeError v) /\ currentIndex v = (-1)%Z) /\
  (In target images ->
   exists v : Viewer,
     outcome = Some (Normal v) /\
     js_index images (currentIndex v) = Some target) /\
  ((exists v : Viewer, outcome = Some (Normal v)) <-> In target images).
Proof.
  intros Htag Hattr images outcome.
  assert (outcome
          = Some (openViewer config doc images ts zs image pending target))
    as Houtcome.
  { subst outcome. unfold onDocumentClick.
    rewrite Htag, Hattr. reflexivity. }
  assert (~ In target images ->
          findIndex (Nat.eqb target) images = (-1)%Z /\
          js_index images (-1) = None /\
          exists v : Viewer,
            outcome = Some (Abrupt TypeError v) /\ currentIndex v = (-1)%Z)
    as Habsent.
  { intros Hnot.
    pose proof (findIndex_from_absent target images 0 Hnot) as Hfind.
    split; [exact Hfind|]. split; [reflexivity|].
    rewrite Houtcome. unfold openViewer. fold (findIndex (Nat.eqb target) images).
    unfold findIndex. rewrite Hfind. cbn [js_index Z.ltb Z.compare].
    eexists. split; reflexivity. }
  assert (In target images ->
          exists v : Viewer,
            outcome = Some (Normal v) /\
            js_index images (currentIndex v) = Some target)
    as Hpresent.
  { intros Hin.
    destruct (findIndex_from_present target images 0 Hin) as (k & Hfind & Hnth).
    rewrite Z.add_0_l in Hfind.
    rewrite Houtcome. unfold openViewer, findIndex. rewrite Hfind.
    rewrite js_index_of_nat, Hnth.
    eexists. split; [reflexivity|].
    cbn [currentIndex set_open set_animationend set_lightboxImage resetZoom
         set_zoomState].
    rewrite js_index_of_nat. exact Hnth. }
  split; [|split; [exact Habsent | split; [exact Hpresent|]]].
  - intros Hno Hin. unfold images, querySelectorAll in Hin.
    apply filter_In in Hin. destruct Hin as [_ Hyes]. congruence.
  - split.
    + intros [v Hv].
      destruct (in_dec Nat.eq_dec target images) as [Hin | Hnot]; [exact Hin|].
      destruct (Habsent Hnot) as (_ & _ & w & Hw & _). congruence.
    + intros Hin. destruct (Hpresent Hin) as (v & Hv & _). exists v. exact Hv.
Qed.

Lemma open_requires_selected_target_witness :
  (exists v : Viewer,
      onDocumentClick sampleMatches plainConfig galleryPage
        touchState0 zoomState0 lightboxImage0 [] 3%nat
      = Some (Abrupt TypeError v) /\
      currentIndex v = (-1)%Z) /\
  (exists v : Viewer,
      onDocumentClick sampleMatches plainConfig galleryPage
        touchState0 zoomState0 lightboxImage0 [] 1%nat
      = Some (Normal v) /\
      currentIndex v = 1%Z).
Proof.
  split.
  - destruct (open_requires_selected_target sampleMatches plainConfig galleryPage
                touchState0 zoomState0 lightboxImage0 [] 3%nat eq_refl eq_refl)
      as (Hsel & Habsent & _).
    apply Habsent, Hsel. reflexivity.
  - destruct (open_requires_selected_target sampleMatches plainConfig galleryPage
                touchState0 zoomState0 lightboxImage0 [] 1%nat eq_refl eq_refl)
      as (_ & _ & _ & Hiff).
    destruct (proj2 Hiff) as [v Hv].
    + cbn. auto.
    + exists v. split; [exact Hv|].
      cbn in Hv. injection Hv as <-. reflexivity.
Defined.

(** ** More on the geometry utilities *)

Lemma sum_of_squares_nonneg (a b : R) : 0 <= a ^ 2 + b ^ 2.
Proof. nra. Qed.

(** X1.  The distance of the first two contacts is symmetric in them, not
    negative, blind to further contacts, and 0 exactly when the two
    contacts are at the same screen position. *)
Theorem getTouchDistance_metric (touch1 touch2 : Touch) (rest : list Touch) :
  getTouchDistance (touch1 :: touch2 :: rest) = getTouchDistance [touch2; touch1] /\
  0 <= getTouchDistance (touch1 :: touch2 :: rest) /\
  (getTouchDistance (touch1 :: touch2 :: rest) = 0 <->
   screenX touch1 = screenX touch2 /\ screenY touch1 = screenY touch2).
Proof.
  unfold getTouchDistance.
  cbn [List.length Nat.ltb Nat.leb nth_error].
  split; [f_equal; ring|].
  split; [apply sqrt_pos|].
  split.
  - intros Hzero.
    apply sqrt_eq_0 in Hzero; [|apply sum_of_squares_nonneg].
    rewrite <- !Rsqr_pow2 in Hzero.
    apply Rplus_sqr_eq_0 in Hzero. destruct Hzero as [Hx Hy]. lra.
  - intros [Hx Hy]. rewrite Hx, Hy.
    replace ((screenX touch2 - screenX touch2) ^ 2
             + (screenY touch2 - screenY touch2) ^ 2) with 0 by ring.
    apply sqrt_0.
Qed.

(** X2.  With two or more contacts the centre is the midpoint of the first
    two, whichever comes first, and it lies at half their distance from
    each of them. *)
Theorem getTouchCenter_midpoint (touch1 touch2 : Touch) (rest : list Touch) :
  exists center : Center,
    getTouchCenter (touch1 :: touch2 :: rest) = Ok center /\
    getTouchCenter [touch2; touch1] = Ok center /\
    let middle := {| screenX := center_x center; screenY := center_y center |} in
    getTouchDistance [touch1; middle] = getTouchDistance [touch1; touch2] / 2 /\
    getTouchDistance [middle; touch2] = getTouchDistance [touch1; touch2] / 2.
Proof.
  exists {| center_x := (screenX touch1 + screenX touch2) / 2;
            center_y := (screenY touch1 + screenY touch2) / 2 |}.
  split; [reflexivity|].
  split.
  { unfold getTouchCenter. cbn [List.length Nat.ltb Nat.leb nth_error].
    f_equal. f_equal; lra. }
  unfold getTouchDistance.
  cbn [List.length Nat.ltb Nat.leb nth_error screenX screenY center_x center_y].
  set (total := (screenX touch2 - screenX touch1) ^ 2
                + (screenY touch2 - screenY touch1) ^ 2).
  assert (0 <= total) as Htotal by apply sum_of_squares_nonneg.
  pose proof (sqrt_pos total) as Hroot.
  pose proof (sqrt_sqrt total Htotal) as Hsq.
  split; apply sqrt_lem_1; try apply sum_of_squares_nonneg; try lra;
    unfold total in *; nra.
Qed.

(** ** The effective configuration *)

(** X3.  Every recognised option that is given is used as given, also
    when it is falsy (a threshold of 0, an empty selector): the trailing
    spread overrides the [||] fallback.  A default applies only to a key
    that is not given.  So with a threshold given as 0, the release of a
    swipe of any length that is more horizontal than vertical navigates. *)
Theorem makeConfig_given_or_default (options : Options) :
  imageSelector (makeConfig options)
  = spread (given_imageSelector options) "img[data-lightbox]"%string /\
  imageUrlAttribute (makeConfig options)
  = spread (given_imageUrlAttribute options) "data-lightbox"%string /\
  lightboxClass (makeConfig options)
  = spread (given_lightboxClass options) "lite-light"%string /\
  swipeThreshold (makeConfig options)
  = spread (given_swipeThreshold options) 50 /\
  fadeAnimationDuration (makeConfig options)
  = spread (given_fadeAnimationDuration options) 150 /\
  (given_swipeThreshold options = Some 0 ->
   forall (doc : Document) (images : list Node) (touch : Touch) (v : Viewer),
     isZooming (touchState v) = false ->
     isApproximatelyOne (scale (zoomState v)) = true ->
     Rabs (screenX touch - startX (touchState v))
     > Rabs (screenY touch - startY (touchState v)) ->
     navigations
       (trace (after (handleTouchEnd (makeConfig options) doc images
                        [touch] [] v)))
     <> navigations (trace v)).
Proof.
  destruct options as [sel attr cls thr dur]. unfold makeConfig.
  cbn [imageSelector imageUrlAttribute lightboxClass swipeThreshold
       fadeAnimationDuration given_imageSelector given_imageUrlAttribute
       given_lightboxClass given_swipeThreshold given_fadeAnimationDuration].
  split; [destruct sel; reflexivity|].
  split; [destruct attr; reflexivity|].
  split; [destruct cls; reflexivity|].
  split; [destruct thr; reflexivity|].
  split; [destruct dur; reflexivity|].
  intros -> doc images touch v Hflag Hrest Hdom.
  match goal with
  | |- context [handleTouchEnd ?c doc images [touch] [] v] =>
      pose proof (handleTouchEnd_release c doc images touch v Hflag Hrest) as Hrel
  end.
  cbv zeta in Hrel.
  rewrite (proj2 (Rgtb_true_iff _ _) Hdom) in Hrel.
  rewrite (proj2 (Rgtb_true_iff _ _)) in Hrel
    by (cbn [swipeThreshold spread];
        pose proof (Rabs_pos (screenY touch - startY (touchState v))); lra).
  cbn [andb] in Hrel. destruct Hrel as [Hnav _]. rewrite Hnav.
  intros Heq. apply (f_equal (@List.length Z)) in Heq.
  rewrite length_app in Heq. cbn in Heq. lia.
Qed.

Lemma makeConfig_given_or_default_witness :
  navigations
    (trace (after (handleTouchEnd
                     (makeConfig
                        {| given_imageSelector := None;
                           given_imageUrlAttribute := None;
                           given_lightboxClass := None;
                           given_swipeThreshold := Some 0;
                           given_fadeAnimationDuration := None |})
                     galleryPage galleryImages [touchAt 299 200] []
                     swipeStarted)))
  <> navigations (trace swipeStarted).
Proof.
  destruct swipeStarted_at_rest as [Hflag Hrest].
  apply (makeConfig_given_or_default
           {| given_imageSelector := None;
              given_imageUrlAttribute := None;
              given_lightboxClass := None;
              given_swipeThreshold := Some 0;
              given_fadeAnimationDuration := None |});
    [reflexivity | exact Hflag | exact Hrest |].
  cbn. split_Rabs; lra.
Defined.

(** ** The preload cache *)

Lemma ownProperty_app (cache : Cache) (k key : string) (img : PreloadedImage) :
  ownProperty (cache ++ [(k, img)]) key
  = match ownProperty cache key with
    | Some found => Some found
    | None => if String.eqb key k then Some img else None
    end.
Proof.
  induction cache as [|[k' img'] cache IH]; cbn.
  - reflexivity.
  - destruct (String.eqb key k'); [reflexivity | exact IH].
Qed.

Lemma preloadImage_keeps (url : option string) (cache : Cache)
      (key : string) (img : PreloadedImage) :
  ownProperty cache key = Some img ->
  ownProperty (fst (preloadImage url cache)) key = Some img.
Proof.
  intros Hown. unfold preloadImage.
  destruct (cacheGet cache (propertyKey url)); cbn [fst]; [exact Hown|].
  rewrite ownProperty_app, Hown. reflexivity.
Qed.

Lemma preloadImage_cached (url : option string) (cache : Cache) :
  cacheGet (fst (preloadImage url cache)) (propertyKey url)
  = Some (snd (preloadImage url cache)).
Proof.
  unfold preloadImage.
  destruct (cacheGet cache (propertyKey url)) as [entry|] eqn:Hget;
    cbn [fst snd]; [exact Hget|].
  unfold cacheGet in *. rewrite ownProperty_app.
  destruct (ownProperty cache (propertyKey url)); [discriminate|].
  rewrite String.eqb_refl. reflexivity.
Qed.

(** X5.  [preloadImage] inserts only if absent: it never changes or drops
    an entry, a URL already known (or naming an inherited property) leaves
    the cache as it is, an unknown URL gets one new image whose source is
    that URL, the handle returned is what the cache then holds for the
    URL, and a second call for the same URL changes nothing and returns
    the same handle. *)
Theorem preloadImage_insert_if_absent (url : option string) (cache : Cache) :
  let cache' := fst (preloadImage url cache) in
  let handle := snd (preloadImage url cache) in
  (forall (key : string) (img : PreloadedImage),
      ownProperty cache key = Some img -> ownProperty cache' key = Some img) /\
  (cacheGet cache (propertyKey url) <> None -> cache' = cache) /\
  (cacheGet cache (propertyKey url) = None ->
   cache' = cache ++ [(propertyKey url, {| image_src := propertyKey url |})] /\
   handle = OwnImage {| image_src := propertyKey url |}) /\
  cacheGet cache' (propertyKey url) = Some handle /\
  preloadImage url cache' = (cache', handle).
Proof.
  cbv zeta.
  split; [intros key img; apply preloadImage_keeps|].
  split.
  { unfold preloadImage. destruct (cacheGet cache (propertyKey url));
      [reflexivity | intros Hne; contradiction]. }
  split.
  { intros Hnone. unfold preloadImage. rewrite Hnone. split; reflexivity. }
  split; [apply preloadImage_cached|].
  pose proof (preloadImage_cached url cache) as Hcached.
  unfold preloadImage at 1. rewrite Hcached. reflexivity.
Qed.

Lemma preloadImage_insert_if_absent_witness :
  fst (preloadImage (Some "a.jpg"%string)
         (fst (preloadImage (Some "a.jpg"%string) [])))
  = [("a.jpg"%string, {| image_src := "a.jpg" |})] /\
  fst (preloadImage (Some "toString"%string) []) = [].
Proof.
  split.
  - destruct (preloadImage_insert_if_absent (Some "a.jpg"%string) [])
      as (_ & _ & Hnew & _ & Hagain).
    cbv zeta in Hagain. rewrite Hagain. cbn [fst].
    apply Hnew. reflexivity.
  - apply (preloadImage_insert_if_absent (Some "toString"%string) []).
    discriminate.
Defined.

Lemma js_index_in_range {A : Type} (arr : list A) (i : Z) :
  (0 <= i < Z.of_nat (List.length arr))%Z ->
  exists a : A, js_index arr i = Some a.
Proof.
  intros Hi. unfold js_index.
  destruct (Z.ltb_spec i 0); [lia|].
  destruct (nth_error arr (Z.to_nat i)) as [a|] eqn:Hnth.
  - exists a. reflexivity.
  - apply nth_error_None in Hnth. lia.
Qed.

(** X6.  For a current index inside the gallery, [preloadAdjacentImages]
    ends normally: the neighbours it reads are the images at
    [(currentIdx - 1) mod count] and [(currentIdx + 1) mod count], both are
    in the cache afterwards and nothing cached before is lost. *)
Theorem preloadAdjacentImages_in_range (config : Config) (doc : Document)
        (images : list Node) (currentIdx : Z) (cache : Cache) :
  (0 <= currentIdx < count images)%Z ->
  exists (previous next : Node) (cache' : Cache),
    js_index images ((currentIdx - 1) mod count images) = Some previous /\
    js_index images ((currentIdx + 1) mod count images) = Some next /\
    preloadAdjacentImages config doc images currentIdx cache = PreloadDone cache' /\
    cacheGet cache'
      (propertyKey (getAttribute doc previous (imageUrlAttribute config))) <> None /\
    cacheGet cache'
      (propertyKey (getAttribute doc next (imageUrlAttribute config))) <> None /\
    (forall (key : string) (img : PreloadedImage),
        ownProperty cache key = Some img -> ownProperty cache' key = Some img).
Proof.
  intros Hidx.
  assert (0 < count images)%Z as Hn by lia.
  assert (Z.rem (currentIdx - 1 + count images) (count images)
          = (currentIdx - 1) mod count images)%Z as Hprev.
  { rewrite Z.rem_mod_nonneg by lia.
    replace (currentIdx - 1 + count images)%Z
      with (currentIdx - 1 + 1 * count images)%Z by lia.
    apply Z.mod_add. lia. }
  assert (Z.rem (currentIdx + 1) (count images)
          = (currentIdx + 1) mod count images)%Z as Hnext
    by (apply Z.rem_mod_nonneg; lia).
  destruct (js_index_in_range images ((currentIdx - 1) mod count images))
    as [previous Hp]; [apply Z.mod_pos_bound, Hn|].
  destruct (js_index_in_range images ((currentIdx + 1) mod count images))
    as [next Hq]; [apply Z.mod_pos_bound, Hn|].
  exists previous, next. eexists.
  split; [exact Hp|]. split; [exact Hq|].
  unfold preloadAdjacentImages. rewrite Hprev, Hnext, Hp, Hq.
  split; [reflexivity|].
  split; [|split].
  - set (urlP := getAttribute doc previous (imageUrlAttribute config)).
    set (urlN := getAttribute doc next (imageUrlAttribute config)).
    pose proof (preloadImage_cached urlP cache) as Hc.
    unfold cacheGet in *.
    destruct (ownProperty (fst (preloadImage urlP cache)) (propertyKey urlP))
      as [img|] eqn:Hown.
    + rewrite (preloadImage_keeps urlN _ _ _ Hown). discriminate.
    + destruct (ownProperty (fst (preloadImage urlN _)) (propertyKey urlP));
        [discriminate|].
      destruct (existsb _ _); [discriminate | discriminate Hc].
  - rewrite preloadImage_cached. discriminate.
  - intros key img Hown. apply preloadImage_keeps, preloadImage_keeps, Hown.
Qed.

Lemma preloadAdjacentImages_in_range_witness :
  exists cache' : Cache,
    preloadAdjacentImages defaultConfig galleryPage galleryImages 0 []
    = PreloadDone cache' /\
    cacheGet cache' "full.jpg" <> None.
Proof.
  destruct (preloadAdjacentImages_in_range defaultConfig galleryPage
              galleryImages 0 [])
    as (previous & next & cache' & Hp & _ & Hdone & Hcached & _).
  - cbn. lia.
  - exists cache'. split; [exact Hdone|].
    cbn in Hp. injection Hp as <-. exact Hcached.
Defined.

(** ** The image element under the handlers *)

Lemma In_classList_add (c d : string) (classes : list string) :
  In d (classList_add c classes) <-> d = c \/ In d classes.
Proof.
  unfold classList_add.
  destruct (existsb (String.eqb c) classes) eqn:Hex.
  - split; [auto|]. intros [-> | Hin]; [|exact Hin].
    apply existsb_exists in Hex. destruct Hex as (e & Hin & Heq).
    apply String.eqb_eq in Heq. subst e. exact Hin.
  - rewrite in_app_iff. cbn. intuition congruence.
Qed.

Lemma In_classList_remove (c d : string) (classes : list string) :
  In d (classList_remove c classes) <-> In d classes /\ c <> d.
Proof.
  unfold classList_remove. rewrite filter_In.
  rewrite negb_true_iff. rewrite String.eqb_neq. reflexivity.
Qed.

Lemma lastFade_app_fade (listeners : list Listener) (url : option string) :
  lastFade (listeners ++ [HandleFade url]) = Some url.
Proof.
  induction listeners as [|l listeners IH]; cbn; [reflexivity|].
  destruct l; rewrite IH; reflexivity.
Qed.

Lemma lastFade_cleanupsFor (listeners : list Listener) :
  lastFade (cleanupsFor listeners) = None.
Proof.
  induction listeners as [|l listeners IH]; cbn; [reflexivity|].
  destruct l; cbn; exact IH.
Qed.

Lemma cleanupsFor_nil (listeners : list Listener) :
  cleanupsFor listeners = [] -> lastFade listeners = None.
Proof.
  induction listeners as [|l listeners IH]; cbn; [reflexivity|].
  destruct l; [discriminate | exact IH].
Qed.

Lemma cleanupsFor_cleanups (listeners : list Listener) :
  cleanupsFor (cleanupsFor listeners) = [].
Proof.
  induction listeners as [|l listeners IH]; cbn; [reflexivity|].
  destruct l; cbn; exact IH.
Qed.

(** What running a list of [animationend] listeners does to the fields of
    the viewer. *)
Lemma runListeners_effect (listeners : list Listener) (w : Viewer) :
  let w' := fold_left runListener listeners w in
  currentIndex w' = currentIndex w /\
  touchState w' = touchState w /\
  trace w' = trace w /\
  animationend w' = animationend w ++ cleanupsFor listeners /\
  src (lightboxImage w')
  = match lastFade listeners with
    | Some url => url
    | None => src (lightboxImage w)
    end /\
  (lastFade listeners = None -> zoomState w' = zoomState w) /\
  (lastFade listeners <> None ->
   scale (zoomState w') = 1 /\ x (zoomState w') = 0 /\ y (zoomState w') = 0) /\
  (rendered w -> rendered w') /\
  (In "lite-light-fade-out"%string (classList (lightboxImage w')) ->
   lastFade listeners = None /\
   In "lite-light-fade-out"%string (classList (lightboxImage w))) /\
  (In "lite-light-fade-in"%string (classList (lightboxImage w')) ->
   cleanupsFor listeners <> [] \/
   (listeners = [] /\ In "lite-light-fade-in"%string (classList (lightboxImage w)))).
Proof.
  revert w. induction listeners as [|l listeners IH]; intros w.
  - cbn. rewrite app_nil_r.
    split; [reflexivity|]. split; [reflexivity|]. split; [reflexivity|].
    split; [reflexivity|]. split; [reflexivity|]. split; [reflexivity|].
    split; [intros Hne; exfalso; apply Hne; reflexivity|].
    split; [auto|]. split; [auto|]. intros Hmem. right. auto.
  - cbn [fold_left].
    destruct (IH (runListener w l))
      as (Hidx & Hts & Htr & Hls & Hsrc & Hkeep & Hreset & Hrend & Hout & Hin).
    destruct l as [url|].
    + set (w1 := runListener w (HandleFade url)) in *.
      assert (currentIndex w1 = currentIndex w) as E1 by reflexivity.
      assert (touchState w1 = touchState w) as E2 by reflexivity.
      assert (trace w1 = trace w) as E3 by reflexivity.
      assert (animationend w1 = animationend w ++ [FadeInCleanup]) as E4
        by reflexivity.
      assert (src (lightboxImage w1) = url) as E5 by reflexivity.
      assert (scale (zoomState w1) = 1 /\ x (zoomState w1) = 0
              /\ y (zoomState w1) = 0) as E6 by (repeat split).
      assert (rendered w1) as E7 by reflexivity.
      assert (classList (lightboxImage w1)
              = classList_add "lite-light-fade-in"
                  (classList_remove "lite-light-fade-out"
                     (classList (lightboxImage w)))) as E8 by reflexivity.
      clearbody w1. cbn [lastFade cleanupsFor]. cbv zeta.
      rewrite Hidx, Hts, Htr, Hls, Hsrc, E1, E2, E3, E4, E5.
      split; [reflexivity|]. split; [reflexivity|]. split; [reflexivity|].
      split; [rewrite <- app_assoc; reflexivity|].
      split; [destruct (lastFade listeners); reflexivity|].
      split; [destruct (lastFade listeners); discriminate|].
      split.
      { intros _. destruct (lastFade listeners) eqn:Hlast.
        - apply Hreset. discriminate.
        - rewrite (Hkeep eq_refl). exact E6. }
      split; [intros _; apply Hrend; exact E7|].
      split.
      { intros Hmem. destruct (Hout Hmem) as [_ Hmem1]. exfalso.
        rewrite E8 in Hmem1. apply In_classList_add in Hmem1.
        destruct Hmem1 as [Heq | Hmem1]; [discriminate|].
        apply In_classList_remove in Hmem1. destruct Hmem1 as [_ Hne].
        apply Hne. reflexivity. }
      intros _. left. discriminate.
    + set (w1 := runListener w FadeInCleanup) in *.
      assert (currentIndex w1 = currentIndex w) as E1 by reflexivity.
      assert (touchState w1 = touchState w) as E2 by reflexivity.
      assert (trace w1 = trace w) as E3 by reflexivity.
      assert (animationend w1 = animationend w) as E4 by reflexivity.
      assert (src (lightboxImage w1) = src (lightboxImage w)) as E5
        by reflexivity.
      assert (zoomState w1 = zoomState w) as E6 by reflexivity.
      assert (rendered w -> rendered w1) as E7 by (intros Hr; exact Hr).
      assert (classList (lightboxImage w1)
              = classList_remove "lite-light-fade-in"
                  (classList (lightboxImage w))) as E8 by reflexivity.
      clearbody w1. cbn [lastFade cleanupsFor]. cbv zeta.
      rewrite Hidx, Hts, Htr, Hls, Hsrc, E1, E2, E3, E4, E5.
      split; [reflexivity|]. split; [reflexivity|]. split; [reflexivity|].
      split; [reflexivity|].
      split; [reflexivity|].
      split; [intros Hnone; rewrite (Hkeep Hnone); exact E6|].
      split; [exact Hreset|].
      split; [intros Hr; apply Hrend, E7, Hr|].
      split.
      { intros Hmem. destruct (Hout Hmem) as [Hnone Hmem1].
        split; [exact Hnone|].
        rewrite E8 in Hmem1. apply In_classList_remove in Hmem1. apply Hmem1. }
      intros Hmem. destruct (Hin Hmem) as [Hne | [_ Hmem1]]; [left; exact Hne|].
      exfalso. rewrite E8 in Hmem1. apply In_classList_remove in Hmem1.
      destruct Hmem1 as [_ Hne]. apply Hne. reflexivity.
Qed.

Lemma navigateToImage_effect (config : Config) (doc : Document)
      (images : list Node) (index : Z) (v : Viewer) :
  (0 < count images)%Z -> (- count images <= index)%Z ->
  exists (image : Node) (w : Viewer),
    navigateToImage config doc images index v = Normal w /\
    js_index images (currentIndex w) = Some image /\
    currentIndex w = Z.rem (index + count images) (count images) /\
    animationend w
    = animationend v ++ [HandleFade (getAttribute doc image (imageUrlAttribute config))] /\
    classList (lightboxImage w)
    = classList_add "lite-light-fade-out" (classList (lightboxImage v)) /\
    src (lightboxImage w) = src (lightboxImage v) /\
    transform (lightboxImage w) = transform (lightboxImage v) /\
    zoomState w = zoomState v /\
    touchState w = touchState v /\
    displayed w = displayed v /\
    keydownAttached w = keydownAttached v /\
    trace w = trace v ++ [Navigate index].
Proof.
  intros Hn Hi.
  destruct (js_index_in_range images (Z.rem (index + count images) (count images)))
    as [image Himage]; [apply rem_wrap_in_range; assumption|].
  exists image. unfold navigateToImage.
  cbn [currentIndex set_currentIndex emit]. rewrite Himage.
  eexists. split; [reflexivity|]. cbn. repeat split. exact Himage.
Qed.

Lemma viewInvariant_ext (v v' : Viewer) :
  animationend v' = animationend v ->
  lightboxImage v' = lightboxImage v ->
  scale (zoomState v') = scale (zoomState v) ->
  x (zoomState v') = x (zoomState v) ->
  y (zoomState v') = y (zoomState v) ->
  viewInvariant v -> viewInvariant v'.
Proof.
  intros Hls Himg Hs Hx Hy (Hfade & Hrend).
  unfold viewInvariant, fadesBacked, rendered in *.
  rewrite Hls, Himg, Hs, Hx, Hy. auto.
Qed.

Lemma viewInvariant_navigated (config : Config) (doc : Document)
      (images : list Node) (index : Z) (v w : Viewer) :
  (0 < count images)%Z -> (- count images <= index)%Z ->
  navigateToImage config doc images index v = Normal w ->
  viewInvariant v -> viewInvariant w.
Proof.
  intros Hn Hi Hnav (Hfade & Hrend).
  destruct (navigateToImage_effect config doc images index v Hn Hi)
    as (image & w0 & Hnav0 & Himage & _ & Hls & Hcls & Hsrc & Htr & Hzs & _).
  rewrite Hnav in Hnav0. injection Hnav0 as <-.
  unfold viewInvariant, fadesBacked, rendered.
  rewrite Hls, lastFade_app_fade, Htr, Hzs.
  split; [|exact Hrend].
  split; intros _; [|discriminate].
  destruct (animationend v); discriminate.
Qed.

(** Zoom updates that re-render, as the touch moves do them. *)
Lemma viewInvariant_rerendered (zs : ZoomState) (ts : TouchState) (v : Viewer) :
  viewInvariant v ->
  viewInvariant
    (set_touchState ts
       (set_lightboxImage (applyZoomTransform zs (lightboxImage v))
          (set_zoomState zs v))).
Proof.
  intros (Hfade & _).
  unfold viewInvariant, fadesBacked, rendered in *.
  cbn. auto.
Qed.

Lemma handleTouchStart_viewInvariant (touches : list Touch) (v : Viewer) :
  viewInvariant v -> viewInvariant (handleTouchStart touches v).
Proof.
  intros Hinv. unfold handleTouchStart.
  destruct (List.length touches =? 1)%nat.
  - destruct (nth_error touches 0); [|exact Hinv].
    eapply viewInvariant_ext; [..|exact Hinv]; reflexivity.
  - destruct (List.length touches =? 2)%nat; [|exact Hinv].
    destruct (getTouchCenter touches);
      (eapply viewInvariant_ext; [..|exact Hinv]; reflexivity).
Qed.

Lemma handleTouchMove_viewInvariant (touches : list Touch) (v : Viewer) :
  viewInvariant v -> viewInvariant (handleTouchMove touches v).
Proof.
  intros Hinv. unfold handleTouchMove.
  destruct (List.length touches =? 2)%nat.
  - destruct (getTouchCenter touches) as [center|]; [|exact Hinv].
    unfold pinch. destruct (Rgtb (initialDistance (touchState v)) 0).
    + change (touchState
                (set_lightboxImage _ (set_zoomState _ v))) with (touchState v).
      apply viewInvariant_rerendered, Hinv.
    + eapply viewInvariant_ext; [..|exact Hinv]; reflexivity.
  - destruct (_ && _); [|exact Hinv].
    destruct (nth_error touches 0); [|exact Hinv].
    unfold pan. apply viewInvariant_rerendered, Hinv.
Qed.

Lemma fireAnimationend_viewInvariant (v : Viewer) :
  viewInvariant v -> viewInvariant (fireAnimationend v).
Proof.
  intros ([Hin Hout] & Hrend).
  unfold fireAnimationend.
  destruct (runListeners_effect (animationend v) (set_animationend [] v))
    as (_ & _ & _ & Hls & _ & _ & _ & Hr & Hfo & Hfi).
  cbn [animationend set_animationend lightboxImage app] in Hls, Hfo, Hfi.
  unfold viewInvariant, fadesBacked.
  rewrite Hls, lastFade_cleanupsFor.
  split; [|apply Hr; exact Hrend].
  split.
  - intros Hmem. destruct (Hfi Hmem) as [Hne | [Hnil Hmem0]]; [exact Hne|].
    exfalso. exact (Hin Hmem0 Hnil).
  - intros Hmem. destruct (Hfo Hmem) as [Hnone Hmem0].
    exfalso. exact (Hout Hmem0 Hnone).
Qed.

Lemma handleTouchEnd_effect (config : Config) (doc : Document)
      (images : list Node) (changedTouches touches : list Touch) (v : Viewer) :
  (0 <= currentIndex v < count images)%Z ->
  exists (w u : Viewer),
    handleTouchEnd config doc images changedTouches touches v = Normal u /\
    currentIndex u = currentIndex w /\
    animationend u = animationend w /\
    lightboxImage u = lightboxImage w /\
    zoomState u = zoomState w /\
    (touches = [] ->
     isZooming (touchState u) = false /\ initialDistance (touchState u) = 0) /\
    ((w = v /\ navigations (trace u) = navigations (trace v)) \/
     (exists (touch : Touch) (index : Z) (v0 : Viewer),
         changedTouches = [touch] /\ touches = [] /\
         isZooming (touchState v) = false /\
         isApproximatelyOne (scale (zoomState v)) = true /\
         Rabs (screenX touch - startX (touchState v))
         > Rabs (screenY touch - startY (touchState v)) /\
         Rabs (screenX touch - startX (touchState v)) > swipeThreshold config /\
         (index = currentIndex v - 1 \/ index = currentIndex v + 1)%Z /\
         currentIndex v0 = currentIndex v /\ animationend v0 = animationend v /\
         lightboxImage v0 = lightboxImage v /\ zoomState v0 = zoomState v /\
         navigateToImage config doc images index v0 = Normal w /\
         navigations (trace u) = navigations (trace v) ++ [index])).
Proof.
  intros Hidx. unfold handleTouchEnd. cbv zeta.
  destruct (_ && _ && _ && _) eqn:Hguard.
  2: { exists v. eexists. split; [reflexivity|].
       destruct (List.length touches =? 0)%nat eqn:Hl; cbn;
         (split; [reflexivity|]; split; [reflexivity|];
          split; [reflexivity|]; split; [reflexivity|];
          split;
          [intros Ht; first [split; reflexivity | subst touches; discriminate Hl]
          | left; split; reflexivity]). }
  apply andb_true_iff in Hguard. destruct Hguard as [Hguard Hrest].
  apply andb_true_iff in Hguard. destruct Hguard as [Hguard Hzero].
  apply andb_true_iff in Hguard. destruct Hguard as [Hone Hflag].
  apply negb_true_iff in Hflag.
  destruct changedTouches as [|touch [|? ?]]; try discriminate Hone.
  destruct touches as [|? ?]; try discriminate Hzero.
  cbn [nth_error List.length Nat.eqb endX endY startX startY touchState
       set_touchState currentIndex].
  destruct (Rgtb (Rabs (screenX touch - startX (touchState v)))
                 (Rabs (screenY touch - startY (touchState v)))) eqn:Hh.
  2: { exists v. eexists. split; [reflexivity|]. cbn.
       split; [reflexivity|]. split; [reflexivity|].
       split; [reflexivity|]. split; [reflexivity|].
       split; [intros _; split; reflexivity|]. left; split; reflexivity. }
  destruct (Rgtb (Rabs (screenX touch - startX (touchState v)))
                 (swipeThreshold config)) eqn:Ht.
  2: { exists v. eexists. split; [reflexivity|]. cbn.
       split; [reflexivity|]. split; [reflexivity|].
       split; [reflexivity|]. split; [reflexivity|].
       split; [intros _; split; reflexivity|]. left; split; reflexivity. }
  cbn [andb].
  apply Rgtb_true_iff in Hh, Ht.
  assert (exists index : Z,
             (if Rgtb (screenX touch - startX (touchState v)) 0
              then currentIndex v - 1 else currentIndex v + 1)%Z = index /\
             (index = currentIndex v - 1 \/ index = currentIndex v + 1)%Z)
    as (index & -> & Hindex).
  { destruct (Rgtb (screenX touch - startX (touchState v)) 0);
      eexists; split; try reflexivity; auto. }
  match goal with
  | |- context [navigateToImage config doc images index ?w0] =>
      destruct (navigateToImage_effect config doc images index w0)
        as (image & w & Hnav & _ & _ & _ & _ & _ & _ & _ & _ & _ & _ & Htrace);
        [lia | lia |];
      rewrite Hnav; exists w; eexists; split; [reflexivity|]; cbn;
      split; [reflexivity|]; split; [reflexivity|];
      split; [reflexivity|]; split; [reflexivity|];
      split; [intros _; split; reflexivity|];
      right; exists touch, index, w0
  end.
  split; [reflexivity|]. split; [reflexivity|].
  split; [exact Hflag|]. split; [exact Hrest|].
  split; [exact Hh|]. split; [exact Ht|]. split; [exact Hindex|].
  split; [reflexivity|]. split; [reflexivity|].
  split; [reflexivity|]. split; [reflexivity|].
  split; [exact Hnav|].
  rewrite navigations_app. cbn. rewrite app_nil_r, Htrace.
  apply navigations_snoc.
Qed.

Lemma handleKeyboardNav_effect (config : Config) (doc : Document)
      (images : list Node) (key : string) (v : Viewer) :
  (0 <= currentIndex v < count images)%Z ->
  exists (w u : Viewer),
    handleKeyboardNav config doc images key v = Normal u /\
    currentIndex u = currentIndex w /\
    animationend u = animationend w /\
    lightboxImage u = lightboxImage w /\
    zoomState u = zoomState w /\
    (w = v \/
     exists index : Z,
       (index = currentIndex v - 1 \/ index = currentIndex v + 1)%Z /\
       navigateToImage config doc images index v = Normal w).
Proof.
  intros Hidx. unfold handleKeyboardNav.
  destruct (String.eqb key "ArrowLeft").
  { destruct (navigateToImage_effect config doc images (currentIndex v - 1) v)
      as (image & w & Hnav & _); [lia | lia |].
    rewrite Hnav. exists w. eexists. split; [reflexivity|].
    repeat (split; [reflexivity|]).
    right. exists (currentIndex v - 1)%Z. auto. }
  destruct (String.eqb key "ArrowRight").
  { destruct (navigateToImage_effect config doc images (currentIndex v + 1) v)
      as (image & w & Hnav & _); [lia | lia |].
    rewrite Hnav. exists w. eexists. split; [reflexivity|].
    repeat (split; [reflexivity|]).
    right. exists (currentIndex v + 1)%Z. auto. }
  destruct (String.eqb key "Escape");
    (exists v; eexists; split; [reflexivity|];
     repeat (split; [reflexivity|]); left; reflexivity).
Qed.

Lemma dispatch_viewInvariant (config : Config) (doc : Document)
      (images : list Node) (v : Viewer) (e : Event) :
  (0 <= currentIndex v < count images)%Z ->
  viewInvariant v ->
  viewInvariant (dispatch config doc images v e).
Proof.
  intros Hidx Hinv. destruct e; cbn [dispatch].
  - apply handleTouchStart_viewInvariant, Hinv.
  - apply handleTouchMove_viewInvariant, Hinv.
  - destruct (handleTouchEnd_effect config doc images changedTouches touches v Hidx)
      as (w & u & Hend & E1 & E2 & E3 & E4 & _ & Hcase).
    rewrite Hend. cbn [after].
    apply (viewInvariant_ext w u E2 E3); try (rewrite E4; reflexivity).
    destruct Hcase as [[-> _] | (touch & index & v0 & _ & _ & _ & _ & _ & _ & Hindex
                                 & F1 & F2 & F3 & F4 & Hnav & _)];
      [exact Hinv|].
    apply (viewInvariant_navigated config doc images index v0 w);
      [lia | lia | exact Hnav |].
    apply (viewInvariant_ext v v0 F2 F3); try (rewrite F4; reflexivity).
    exact Hinv.
  - destruct (keydownAttached v); [|exact Hinv].
    destruct (handleKeyboardNav_effect config doc images key v Hidx)
      as (w & u & Hkey & E1 & E2 & E3 & E4 & Hcase).
    rewrite Hkey. cbn [after].
    apply (viewInvariant_ext w u E2 E3); try (rewrite E4; reflexivity).
    destruct Hcase as [-> | (index & Hindex & Hnav)]; [exact Hinv|].
    apply (viewInvariant_navigated config doc images index v w);
      [lia | lia | exact Hnav | exact Hinv].
  - unfold createNavigationHandler.
    destruct (navigateToImage_effect config doc images
                (currentIndex (emit StopPropagation v) + -1)
                (emit StopPropagation v)) as (image & w & Hnav & _);
      [lia | cbn; lia |].
    rewrite Hnav. cbn [after].
    apply (viewInvariant_navigated config doc images _ _ w) in Hnav;
      [exact Hnav | lia | cbn; lia |].
    eapply viewInvariant_ext; [..|exact Hinv]; reflexivity.
  - unfold createNavigationHandler.
    destruct (navigateToImage_effect config doc images
                (currentIndex (emit StopPropagation v) + 1)
                (emit StopPropagation v)) as (image & w & Hnav & _);
      [lia | cbn; lia |].
    rewrite Hnav. cbn [after].
    apply (viewInvariant_navigated config doc images _ _ w) in Hnav;
      [exact Hnav | lia | cbn; lia |].
    eapply viewInvariant_ext; [..|exact Hinv]; reflexivity.
  - eapply viewInvariant_ext; [..|exact Hinv]; reflexivity.
  - eapply viewInvariant_ext; [..|exact Hinv]; reflexivity.
  - apply fireAnimationend_viewInvariant, Hinv.
Qed.

Lemma lastFade_app_cleanup (listeners : list Listener) :
  lastFade (listeners ++ [FadeInCleanup]) = lastFade listeners.
Proof.
  induction listeners as [|l listeners IH]; cbn; [reflexivity|].
  destruct l; rewrite IH; reflexivity.
Qed.

(** An open keeps the listeners pending on the image and the classes that
    they back, and renders the reset zoom; an open that raises has written
    nothing but the display. *)
Lemma openViewer_viewInvariant (config : Config) (doc : Document)
      (images : list Node) (earlier : Viewer) (target : Node) :
  viewInvariant earlier ->
  viewInvariant
    (after (openViewer config doc images (touchState earlier)
              (zoomState earlier) (lightboxImage earlier)
              (animationend earlier) target)).
Proof.
  intros ([Hin Hout] & Hrend). unfold openViewer.
  destruct (js_index images _) as [el|]; cbn [after].
  - unfold viewInvariant, fadesBacked, rendered. cbn.
    rewrite lastFade_app_cleanup.
    split; [|reflexivity].
    split.
    + intros _. destruct (animationend earlier); discriminate.
    + intros Hmem. apply Hout.
      apply In_classList_add in Hmem.
      destruct Hmem as [Heq | Hmem]; [discriminate Heq | exact Hmem].
  - unfold viewInvariant, fadesBacked, rendered. cbn.
    split; [split; assumption | exact Hrend].
Qed.

Lemma openViewer_first_viewInvariant (config : Config) (doc : Document)
      (images : list Node) (target : Node) (v : Viewer) :
  openViewer config doc images touchState0 zoomState0 lightboxImage0 [] target
  = Normal v ->
  viewInvariant v.
Proof.
  unfold openViewer.
  destruct (js_index images _) as [el|]; [|discriminate].
  intros H. injection H as <-.
  unfold viewInvariant, fadesBacked, rendered. cbn.
  split; [|reflexivity].
  split; [discriminate|].
  intros [Heq | []]. discriminate Heq.
Qed.

Lemma reachable_viewInvariant (config : Config) (doc : Document)
      (images : list Node) (v : Viewer) :
  reachable config doc images v ->
  (0 <= currentIndex v < count images)%Z /\ viewInvariant v.
Proof.
  intros Hv. split; [apply (reachable_index_in_range config doc images v Hv)|].
  induction Hv as [images target v Hopen
                  | images v e Hv IH
                  | others earlier images target v _ IH Hopen
                  | images v others other e _ IH Hshared Hrange
                  | images v others target _ IH].
  - eapply openViewer_first_viewInvariant, Hopen.
  - apply dispatch_viewInvariant; [|exact IH].
    apply (reachable_index_in_range config doc images v Hv).
  - pose proof (openViewer_viewInvariant config doc images earlier target IH)
      as Hopened.
    rewrite Hopen in Hopened. exact Hopened.
  - destruct Hshared as (_ & Hzs & Himg & Hls & _).
    apply (viewInvariant_ext (dispatch config doc others other e));
      try reflexivity.
    apply dispatch_viewInvariant; [exact Hrange|].
    apply (viewInvariant_ext v other Hls Himg); try (rewrite Hzs; reflexivity).
    exact IH.
  - apply (viewInvariant_ext
             (after (openViewer config doc others (touchState v) (zoomState v)
                       (lightboxImage v) (animationend v) target)));
      try reflexivity.
    apply openViewer_viewInvariant, IH.
Qed.

(** ** The image on display *)

(** X7.  In every reachable state the transform written to the image is
    the one of the zoom state: its scale and its two offsets. *)
Theorem transform_follows_zoomState (config : Config) (doc : Document)
        (images : list Node) (v : Viewer) :
  reachable config doc images v ->
  transform (lightboxImage v)
  = Some {| transform_scale := scale (zoomState v);
            translate_x := x (zoomState v);
            translate_y := y (zoomState v) |}.
Proof.
  intros Hv. apply (reachable_viewInvariant config doc images v Hv).
Qed.

Lemma transform_follows_zoomState_witness :
  transform (lightboxImage zoomedViewer)
  = Some {| transform_scale := scale (zoomState zoomedViewer);
            translate_x := x (zoomState zoomedViewer);
            translate_y := y (zoomState zoomedViewer) |}.
Proof.
  apply (transform_follows_zoomState defaultConfig galleryPage galleryImages).
  apply (reachable_run defaultConfig galleryPage galleryImages spreadGesture).
  exact reachable_viewer0.
Defined.

(** X8.  In a reachable state the current index names an image of the
    gallery, and no handler raises: the touch-end handler, the keyboard
    handler and the two navigation buttons all end normally. *)
Theorem handlers_do_not_raise (config : Config) (doc : Document)
        (images : list Node) (v : Viewer) :
  reachable config doc images v ->
  (exists image : Node, js_index images (currentIndex v) = Some image) /\
  (forall changedTouches touches : list Touch,
      exists u : Viewer,
        handleTouchEnd config doc images changedTouches touches v = Normal u) /\
  (forall key : string,
      exists u : Viewer, handleKeyboardNav config doc images key v = Normal u) /\
  (exists u : Viewer, createNavigationHandler config doc images (-1) v = Normal u) /\
  (exists u : Viewer, createNavigationHandler config doc images 1 v = Normal u).
Proof.
  intros Hv.
  pose proof (reachable_index_in_range config doc images v Hv) as Hidx.
  split; [apply js_index_in_range; exact Hidx|].
  split.
  { intros changedTouches touches.
    destruct (handleTouchEnd_effect config doc images changedTouches touches v Hidx)
      as (_ & u & Hend & _).
    exists u. exact Hend. }
  split.
  { intros key.
    destruct (handleKeyboardNav_effect config doc images key v Hidx)
      as (_ & u & Hkey & _).
    exists u. exact Hkey. }
  split; unfold createNavigationHandler.
  - destruct (navigateToImage_effect config doc images
                (currentIndex (emit StopPropagation v) + -1)
                (emit StopPropagation v)) as (_ & w & Hnav & _);
      [lia | cbn; lia |].
    exists w. exact Hnav.
  - destruct (navigateToImage_effect config doc images
                (currentIndex (emit StopPropagation v) + 1)
                (emit StopPropagation v)) as (_ & w & Hnav & _);
      [lia | cbn; lia |].
    exists w. exact Hnav.
Qed.

Lemma handlers_do_not_raise_witness :
  exists u : Viewer,
    handleKeyboardNav defaultConfig galleryPage galleryImages "ArrowLeft" viewer0
    = Normal u.
Proof.
  apply (handlers_do_not_raise defaultConfig galleryPage galleryImages viewer0).
  exact reachable_viewer0.
Defined.

(** X9.  In a reachable state, also after the viewer has been closed and
    opened again with the listeners of earlier navigations still on the
    image, an [animationend] event runs the pending fades: the source
    becomes the URL held by the [handleFade] registered last and stays as
    it is when none is pending, no fade is pending afterwards, the
    fade-out class is gone, and the zoom is reset when a fade ran and
    untouched otherwise.  After a navigation of this viewer to an index
    not below [-count], the URL shown is that of the image at its current
    index. *)
Theorem animationend_shows_last_request (config : Config) (doc : Document)
        (images : list Node) (v : Viewer) :
  reachable config doc images v ->
  let v' := dispatch config doc images v AnimationEnd in
  currentIndex v' = currentIndex v /\
  src (lightboxImage v') = settledSrc v /\
  lastFade (animationend v') = None /\
  ~ In "lite-light-fade-out"%string (classList (lightboxImage v')) /\
  (lastFade (animationend v) <> None ->
   scale (zoomState v') = 1 /\ x (zoomState v') = 0 /\ y (zoomState v') = 0) /\
  (lastFade (animationend v) = None -> zoomState v' = zoomState v) /\
  (forall index : Z,
      (- count images <= index)%Z ->
      let w := after (navigateToImage config doc images index v) in
      exists image : Node,
        js_index images (currentIndex w) = Some image /\
        src (lightboxImage (dispatch config doc images w AnimationEnd))
        = getAttribute doc image (imageUrlAttribute config)).
Proof.
  intros Hv v'.
  destruct (reachable_viewInvariant config doc images v'
              (reachable_dispatch config doc images v AnimationEnd Hv))
    as (_ & [_ Hout] & _).
  pose proof (reachable_index_in_range config doc images v Hv) as Hrange.
  subst v'. cbn [dispatch] in *. unfold fireAnimationend in *.
  destruct (runListeners_effect (animationend v) (set_animationend [] v))
    as (Hidx & _ & _ & Hls & Hsrc & Hkeep & Hreset & _).
  cbn [animationend set_animationend lightboxImage app currentIndex zoomState]
    in Hls, Hsrc, Hidx, Hkeep.
  split; [exact Hidx|].
  split; [rewrite Hsrc; reflexivity|].
  assert (lastFade
            (animationend
               (fold_left runListener (animationend v) (set_animationend [] v)))
          = None) as Hnone by (rewrite Hls; apply lastFade_cleanupsFor).
  split; [exact Hnone|].
  split; [intros Hmem; exact (Hout Hmem Hnone)|].
  split; [exact Hreset|].
  split; [exact Hkeep|].
  intros index Hindex. cbv zeta.
  destruct (navigateToImage_effect config doc images index v)
    as (image & w & Hnav & Himage & _ & Hpending & _); [lia | exact Hindex |].
  rewrite Hnav. cbn [after]. exists image.
  split; [exact Himage|].
  destruct (runListeners_effect (animationend w) (set_animationend [] w))
    as (_ & _ & _ & _ & Hshown & _).
  rewrite Hshown. cbn [animationend set_animationend].
  rewrite Hpending, lastFade_app_fade. reflexivity.
Qed.

Lemma animationend_shows_last_request_witness :
  src (lightboxImage
         (dispatch defaultConfig galleryPage galleryImages reopenedViewer
            AnimationEnd))
  = settledSrc reopenedViewer /\
  lastFade (animationend reopenedViewer) <> None.
Proof.
  split; [|discriminate].
  apply (animationend_shows_last_request defaultConfig galleryPage galleryImages
           reopenedViewer).
  apply (reachable_reopen defaultConfig galleryPage galleryImages
           (dispatch defaultConfig galleryPage galleryImages viewer0 ClickNext)
           galleryImages 2%nat).
  - apply reachable_dispatch, reachable_viewer0.
  - reflexivity.
Defined.

(** X10.  From a reachable state, two [animationend] events with nothing in
    between settle the image: no listener is left registered and neither
    fade class remains. *)
Theorem animations_settle (config : Config) (doc : Document)
        (images : list Node) (v : Viewer) :
  reachable config doc images v ->
  let v' :=
    dispatch config doc images
      (dispatch config doc images v AnimationEnd) AnimationEnd in
  animationend v' = [] /\
  ~ In "lite-light-fade-in"%string (classList (lightboxImage v')) /\
  ~ In "lite-light-fade-out"%string (classList (lightboxImage v')).
Proof.
  intros Hv v'.
  assert (reachable config doc images v') as Hv'
    by (apply reachable_dispatch, reachable_dispatch, Hv).
  destruct (reachable_viewInvariant config doc images v' Hv')
    as (_ & [Hin Hout] & _).
  assert (animationend v' = []) as Hnil.
  { subst v'. cbn [dispatch]. unfold fireAnimationend.
    destruct (runListeners_effect (animationend v) (set_animationend [] v))
      as (_ & _ & _ & Hls1 & _).
    set (v1 := fold_left runListener (animationend v) (set_animationend [] v)) in *.
    destruct (runListeners_effect (animationend v1) (set_animationend [] v1))
      as (_ & _ & _ & Hls2 & _).
    rewrite Hls2. cbn [animationend set_animationend app].
    rewrite Hls1. cbn [animationend set_animationend app].
    apply cleanupsFor_cleanups. }
  split; [exact Hnil|].
  split.
  - intros Hmem. exact (Hin Hmem Hnil).
  - intros Hmem. apply (Hout Hmem). rewrite Hnil. reflexivity.
Qed.

Lemma animations_settle_witness :
  animationend
    (dispatch defaultConfig galleryPage galleryImages
       (dispatch defaultConfig galleryPage galleryImages
          (dispatch defaultConfig galleryPage galleryImages viewer0 ClickNext)
          AnimationEnd) AnimationEnd) = [].
Proof.
  apply (animations_settle defaultConfig galleryPage galleryImages
           (dispatch defaultConfig galleryPage galleryImages viewer0 ClickNext)).
  apply reachable_dispatch, reachable_viewer0.
Defined.

(** ** Navigation, step by step *)

Lemma createNavigationHandler_index (config : Config) (doc : Document)
      (images : list Node) (direction : Z) (v : Viewer) :
  (0 <= currentIndex v < count images)%Z ->
  (direction = 1 \/ direction = -1)%Z ->
  currentIndex (after (createNavigationHandler config doc images direction v))
  = ((currentIndex v + direction) mod count images)%Z.
Proof.
  intros Hidx Hd. unfold createNavigationHandler.
  rewrite navigateToImage_currentIndex. cbn [currentIndex emit].
  rewrite Z.rem_mod_nonneg by lia.
  replace (currentIndex v + direction + count images)%Z
    with (currentIndex v + direction + 1 * count images)%Z by lia.
  apply Z.mod_add. lia.
Qed.

(** X11.  "Next" and "previous" undo each other: from an index inside the
    gallery, pressing one button and then the other stores the starting
    index again, also across the wrap at either end. *)
Theorem next_and_previous_cancel (config : Config) (doc : Document)
        (images : list Node) (v : Viewer) :
  (0 <= currentIndex v < count images)%Z ->
  currentIndex
    (dispatch config doc images (dispatch config doc images v ClickNext) ClickPrev)
  = currentIndex v /\
  currentIndex
    (dispatch config doc images (dispatch config doc images v ClickPrev) ClickNext)
  = currentIndex v.
Proof.
  intros Hidx. cbn [dispatch].
  assert (0 < count images)%Z as Hn by lia.
  split.
  - rewrite createNavigationHandler_index;
      [| rewrite createNavigationHandler_index by (auto; lia);
         apply Z.mod_pos_bound; exact Hn
       | auto].
    rewrite createNavigationHandler_index by (auto; lia).
    rewrite Zplus_mod_idemp_l.
    replace (currentIndex v + 1 + -1)%Z with (currentIndex v) by lia.
    apply Z.mod_small. exact Hidx.
  - rewrite createNavigationHandler_index;
      [| rewrite createNavigationHandler_index by (auto; lia);
         apply Z.mod_pos_bound; exact Hn
       | auto].
    rewrite createNavigationHandler_index by (auto; lia).
    rewrite Zplus_mod_idemp_l.
    replace (currentIndex v + -1 + 1)%Z with (currentIndex v) by lia.
    apply Z.mod_small. exact Hidx.
Qed.

Lemma next_and_previous_cancel_witness :
  currentIndex
    (dispatch defaultConfig galleryPage galleryImages
       (dispatch defaultConfig galleryPage galleryImages viewer0 ClickPrev)
       ClickNext) = 0%Z.
Proof.
  apply (next_and_previous_cancel defaultConfig galleryPage galleryImages viewer0).
  cbn. lia.
Defined.

(** X12.  A navigation button followed by the end of the fade shows the
    neighbour: the index becomes [(currentIndex + direction) mod count],
    the source is the URL of the image at that index, and the zoom is
    reset to scale 1 with zero offsets, rendered as such. *)
Theorem navigation_then_fade_shows_neighbour (config : Config) (doc : Document)
        (images : list Node) (v : Viewer) (button : Event) (direction : Z) :
  reachable config doc images v ->
  (button = ClickNext /\ direction = 1%Z) \/
  (button = ClickPrev /\ direction = (-1)%Z) ->
  let v' :=
    dispatch config doc images (dispatch config doc images v button) AnimationEnd in
  exists image : Node,
    js_index images ((currentIndex v + direction) mod count images) = Some image /\
    currentIndex v' = ((currentIndex v + direction) mod count images)%Z /\
    src (lightboxImage v') = getAttribute doc image (imageUrlAttribute config) /\
    zoomState v'
    = {| scale := 1; x := 0; y := 0;
         initialScale := initialScale (zoomState v);
         initialX := initialX (zoomState v);
         initialY := initialY (zoomState v) |} /\
    transform (lightboxImage v')
    = Some {| transform_scale := 1; translate_x := 0; translate_y := 0 |}.
Proof.
  intros Hv Hbutton v'.
  pose proof (reachable_index_in_range config doc images v Hv) as Hidx.
  assert (dispatch config doc images v button
          = after (createNavigationHandler config doc images direction v)) as Hstep.
  { destruct Hbutton as [[-> ->] | [-> ->]]; reflexivity. }
  assert (direction = 1 \/ direction = -1)%Z as Hd
    by (destruct Hbutton as [[_ ->] | [_ ->]]; auto).
  assert (reachable config doc images (dispatch config doc images v button)) as Hv1
    by (apply reachable_dispatch, Hv).
  assert (reachable config doc images v') as Hv'
    by (apply reachable_dispatch, Hv1).
  destruct (reachable_viewInvariant config doc images v' Hv')
    as (_ & _ & Hrend).
  subst v'. rewrite Hstep in *. clear Hstep.
  unfold createNavigationHandler in *.
  destruct (navigateToImage_effect config doc images
              (currentIndex (emit StopPropagation v) + direction)
              (emit StopPropagation v))
    as (image & w & Hnav & Himage & Hcur & Hls & _ & _ & _ & Hzs & _);
    [lia | cbn; lia |].
  rewrite Hnav in *. cbn [after] in *.
  assert (currentIndex w = ((currentIndex v + direction) mod count images)%Z)
    as Hcur'.
  { rewrite Hcur. cbn [currentIndex emit].
    rewrite Z.rem_mod_nonneg by lia.
    replace (currentIndex v + direction + count images)%Z
      with (currentIndex v + direction + 1 * count images)%Z by lia.
    apply Z.mod_add. lia. }
  cbn [dispatch] in *. unfold fireAnimationend in *.
  destruct (runListeners_effect (animationend w) (set_animationend [] w))
    as (Hidx' & _ & _ & _ & Hsrc & _ & Hreset & _).
  cbn [animationend set_animationend lightboxImage currentIndex zoomState]
    in Hidx', Hsrc, Hreset.
  assert (lastFade (animationend w) <> None) as Hpending
    by (rewrite Hls, lastFade_app_fade; discriminate).
  exists image.
  split; [rewrite <- Hcur'; exact Himage|].
  split; [rewrite Hidx'; exact Hcur'|].
  split.
  { rewrite Hsrc, Hls, lastFade_app_fade. reflexivity. }
  assert (forall ls u,
             initialScale (zoomState (fold_left runListener ls u))
             = initialScale (zoomState u) /\
             initialX (zoomState (fold_left runListener ls u))
             = initialX (zoomState u) /\
             initialY (zoomState (fold_left runListener ls u))
             = initialY (zoomState u)) as Hinit.
  { induction ls as [|l ls IH]; intros u; cbn [fold_left]; [auto|].
    destruct (IH (runListener u l)) as (I1 & I2 & I3).
    rewrite I1, I2, I3. destruct l; auto. }
  destruct (Hinit (animationend w) (set_animationend [] w)) as (I1 & I2 & I3).
  cbn [zoomState set_animationend] in I1, I2, I3. rewrite Hzs in I1, I2, I3.
  cbn [zoomState emit] in I1, I2, I3.
  destruct (Hreset Hpending) as (Hs & Hx & Hy).
  unfold rendered in Hrend. rewrite Hrend, Hs, Hx, Hy.
  split; [|reflexivity].
  destruct (zoomState (fold_left runListener (animationend w)
                         (set_animationend [] w))) as [s0 x0 y0 is0 ix0 iy0].
  cbn in *. subst. reflexivity.
Qed.

Lemma navigation_then_fade_shows_neighbour_witness :
  currentIndex
    (dispatch defaultConfig galleryPage galleryImages
       (dispatch defaultConfig galleryPage galleryImages zoomedViewer ClickPrev)
       AnimationEnd) = 2%Z /\
  scale
    (zoomState
       (dispatch defaultConfig galleryPage galleryImages
          (dispatch defaultConfig galleryPage galleryImages zoomedViewer ClickPrev)
          AnimationEnd)) = 1.
Proof.
  destruct (navigation_then_fade_shows_neighbour defaultConfig galleryPage
              galleryImages zoomedViewer ClickPrev (-1))
    as (image & _ & Hidx & _ & Hzoom & _).
  - apply (reachable_run defaultConfig galleryPage galleryImages spreadGesture).
    exact reachable_viewer0.
  - right. split; reflexivity.
  - assert (currentIndex zoomedViewer = 0%Z) as Hzero.
    { unfold zoomedViewer. rewrite handleTouchMove_two. unfold pinch.
      destruct (Rgtb _ _); reflexivity. }
    split; [rewrite Hidx, Hzero; reflexivity | rewrite Hzoom; reflexivity].
Defined.

(** ** The keyboard *)

(** X13.  While the keyboard listener is attached, Escape hides the viewer
    and detaches the listener, asks for the default action to be prevented
    and touches neither the index nor the zoom nor the image; afterwards
    no key does anything.  A key other than the two arrows and Escape does
    nothing at any time. *)
Theorem escape_closes_and_detaches (config : Config) (doc : Document)
        (images : list Node) (v : Viewer) :
  keydownAttached v = true ->
  let v' := dispatch config doc images v (KeyDown "Escape") in
  displayed v' = false /\
  keydownAttached v' = false /\
  trace v' = trace v ++ [PreventDefault] /\
  currentIndex v' = currentIndex v /\
  zoomState v' = zoomState v /\
  lightboxImage v' = lightboxImage v /\
  (forall key : string, dispatch config doc images v' (KeyDown key) = v') /\
  (forall key : string,
      key <> "ArrowLeft"%string -> key <> "ArrowRight"%string ->
      key <> "Escape"%string ->
      dispatch config doc images v (KeyDown key) = v).
Proof.
  intros Hattached v'. subst v'. cbn [dispatch]. rewrite Hattached.
  cbn. repeat split.
  intros key Hl Hr He. unfold handleKeyboardNav.
  apply String.eqb_neq in Hl, Hr, He. rewrite Hl, Hr, He. reflexivity.
Qed.

Lemma escape_closes_and_detaches_witness :
  displayed (dispatch defaultConfig galleryPage galleryImages viewer0
               (KeyDown "Escape")) = false /\
  dispatch defaultConfig galleryPage galleryImages
    (dispatch defaultConfig galleryPage galleryImages viewer0 (KeyDown "Escape"))
    (KeyDown "ArrowRight")
  = dispatch defaultConfig galleryPage galleryImages viewer0 (KeyDown "Escape").
Proof.
  destruct (escape_closes_and_detaches defaultConfig galleryPage galleryImages
              viewer0 eq_refl) as (Hhidden & _ & _ & _ & _ & _ & Hdead & _).
  split; [exact Hhidden | apply Hdead].
Defined.

(** ** Gestures, step by step *)

(** X14.  With the index inside the gallery, a touch end that leaves no
    contact clears the zooming flag and the stored pinch distance, whatever
    else it does; a two-contact move that follows without a new two-contact
    start then leaves the zoom state and the image as they are. *)
Theorem release_ends_the_gesture (config : Config) (doc : Document)
        (images : list Node) (changedTouches : list Touch)
        (touch1 touch2 : Touch) (v : Viewer) :
  (0 <= currentIndex v < count images)%Z ->
  let v' := dispatch config doc images v (TouchEnd changedTouches []) in
  isZooming (touchState v') = false /\
  initialDistance (touchState v') = 0 /\
  zoomState (handleTouchMove [touch1; touch2] v') = zoomState v' /\
  lightboxImage (handleTouchMove [touch1; touch2] v') = lightboxImage v'.
Proof.
  intros Hidx v'. subst v'. cbn [dispatch].
  destruct (handleTouchEnd_effect config doc images changedTouches [] v Hidx)
    as (w & u & Hend & _ & _ & _ & _ & Hclear & _).
  rewrite Hend. cbn [after].
  destruct (Hclear eq_refl) as [Hflag Hdist].
  split; [exact Hflag|]. split; [exact Hdist|].
  rewrite handleTouchMove_two. apply pinch_skipped. rewrite Hdist. lra.
Qed.

Lemma release_ends_the_gesture_witness :
  initialDistance
    (touchState (dispatch defaultConfig galleryPage galleryImages pinchStarted
                   (TouchEnd [touchAt 100 100; touchAt 200 100] []))) = 0.
Proof.
  apply (release_ends_the_gesture defaultConfig galleryPage galleryImages
           [touchAt 100 100; touchAt 200 100] (touchAt 0 0) (touchAt 1 1)
           pinchStarted).
  cbn. lia.
Defined.

(** X15.  A touch end calls [navigateToImage] only for a swipe: if the
    recorded navigations change, then exactly one contact was released,
    none remains, the zooming flag was clear, the scale was within
    tolerance of 1, and the horizontal displacement from the start point
    exceeds both the vertical one and the threshold. *)
Theorem touch_end_navigates_only_on_swipe (config : Config) (doc : Document)
        (images : list Node) (changedTouches touches : list Touch) (v : Viewer) :
  navigations
    (trace (after (handleTouchEnd config doc images changedTouches touches v)))
  <> navigations (trace v) ->
  exists touch : Touch,
    changedTouches = [touch] /\
    touches = [] /\
    isZooming (touchState v) = false /\
    isApproximatelyOne (scale (zoomState v)) = true /\
    Rabs (screenX touch - startX (touchState v))
    > Rabs (screenY touch - startY (touchState v)) /\
    Rabs (screenX touch - startX (touchState v)) > swipeThreshold config.
Proof.
  unfold handleTouchEnd. cbv zeta.
  destruct (_ && _ && _ && _) eqn:Hguard.
  2: { intros Hchanged. exfalso. apply Hchanged.
       destruct (List.length touches =? 0)%nat; reflexivity. }
  apply andb_true_iff in Hguard. destruct Hguard as [Hguard Hrest].
  apply andb_true_iff in Hguard. destruct Hguard as [Hguard Hzero].
  apply andb_true_iff in Hguard. destruct Hguard as [Hone Hflag].
  apply negb_true_iff in Hflag.
  destruct changedTouches as [|touch [|? ?]]; try discriminate Hone.
  destruct touches as [|? ?]; try discriminate Hzero.
  cbn [nth_error List.length Nat.eqb endX endY startX startY touchState
       set_touchState currentIndex].
  destruct (Rgtb (Rabs (screenX touch - startX (touchState v)))
                 (Rabs (screenY touch - startY (touchState v)))) eqn:Hh;
    [|intros Hchanged; exfalso; apply Hchanged; reflexivity].
  destruct (Rgtb (Rabs (screenX touch - startX (touchState v)))
                 (swipeThreshold config)) eqn:Ht;
    [|intros Hchanged; exfalso; apply Hchanged; reflexivity].
  intros _. exists touch.
  apply Rgtb_true_iff in Hh, Ht. auto 10.
Qed.

Lemma touch_end_navigates_only_on_swipe_witness :
  exists touch : Touch,
    [touchAt 200 200] = [touch] /\
    Rabs (screenX touch - startX (touchState swipeStarted))
    > swipeThreshold defaultConfig.
Proof.
  destruct (touch_end_navigates_only_on_swipe defaultConfig galleryPage
              galleryImages [touchAt 200 200] [] swipeStarted)
    as (touch & Hshape & _ & _ & _ & _ & Hthr).
  - destruct swipeStarted_at_rest as [Hflag Hrest].
    pose proof (handleTouchEnd_release defaultConfig galleryPage galleryImages
                  (touchAt 200 200) swipeStarted Hflag Hrest) as Hrel.
    cbv zeta in Hrel.
    rewrite (proj2 (Rgtb_true_iff _ _)) in Hrel by (cbn; split_Rabs; lra).
    rewrite (proj2 (Rgtb_true_iff _ _)) in Hrel by (cbn; split_Rabs; lra).
    cbn [andb] in Hrel. destruct Hrel as [Hnav _]. rewrite Hnav.
    intros Heq. apply (f_equal (@List.length Z)) in Heq.
    rewrite length_app in Heq. cbn in Heq. lia.
  - exists touch. split; [exact Hshape | exact Hthr].
Defined.




Lemma clampScale_monotone (a b : R) : a <= b -> clampScale a <= clampScale b.
Proof.
  intros Hab. unfold clampScale, MIN_ZOOM, MAX_ZOOM, Rmax, Rmin.
  destruct (Rle_dec 5 a); destruct (Rle_dec 5 b);
    repeat match goal with
           | |- context [Rle_dec 1 ?q] => destruct (Rle_dec 1 q)
           end; lra.
Qed.

(** X17.  Putting two fingers down and moving them by nothing changes
    nothing on screen: from a state whose scale is within [1, 5] and that
    is centred at rest, a two-contact start followed by a two-contact move
    with the same contacts keeps the scale and both offsets. *)
Theorem pinch_without_movement (touch1 touch2 : Touch) (v : Viewer) :
  1 <= scale (zoomState v) <= 5 ->
  centredAtRest (zoomState v) ->
  let v' :=
    handleTouchMove [touch1; touch2] (handleTouchStart [touch1; touch2] v) in
  scale (zoomState v') = scale (zoomState v) /\
  x (zoomState v') = x (zoomState v) /\
  y (zoomState v') = y (zoomState v).
Proof.
  intros Hrange Hcentred v'. subst v'.
  destruct (handleTouchStart_two touch1 touch2 v) as [Hts Hzs].
  set (v1 := handleTouchStart [touch1; touch2] v) in *.
  rewrite handleTouchMove_two.
  set (d := getTouchDistance [touch1; touch2]) in *.
  set (c := {| center_x := (screenX touch1 + screenX touch2) / 2;
               center_y := (screenY touch1 + screenY touch2) / 2 |}).
  assert (initialDistance (touchState v1) = d) as Hd by (rewrite Hts; reflexivity).
  destruct (Rle_or_lt d 0) as [Hle | Hpos].
  - destruct (pinch_skipped d c v1) as [Hsame _]; [rewrite Hd; exact Hle|].
    rewrite Hsame, Hzs. repeat split.
  - assert (clampScale (initialScale (zoomState v1)
                        * (d / initialDistance (touchState v1)))
            = scale (zoomState v)) as Hscale.
    { rewrite Hd, Hzs. cbn [initialScale].
      replace (scale (zoomState v) * (d / d)) with (scale (zoomState v))
        by (field; lra).
      apply clampScale_inside, Hrange. }
    split; [rewrite pinch_scale by (rewrite Hd; lra); exact Hscale|].
    destruct (isApproximatelyOne (scale (zoomState v))) eqn:Hrest.
    + destruct (pinch_near_rest d c v1) as [Hx Hy];
        [rewrite Hd; lra | rewrite Hscale; exact Hrest |].
      destruct (Hcentred Hrest) as [Hx0 Hy0].
      rewrite Hx, Hy, Hx0, Hy0. split; reflexivity.
    + destruct (pinch_zoomed d c v1) as [Hx Hy];
        [rewrite Hd; lra | rewrite Hscale; exact Hrest |].
      rewrite Hx, Hy, Hscale, Hzs, Hts. cbn.
      split; field; lra.
Qed.

Lemma pinch_without_movement_witness :
  scale
    (zoomState
       (handleTouchMove [touchAt 0 0; touchAt 30 40]
          (handleTouchStart [touchAt 0 0; touchAt 30 40] zoomedViewer))) = 2.
Proof.
  rewrite <- zoomedViewer_scale.
  apply (pinch_without_movement (touchAt 0 0) (touchAt 30 40) zoomedViewer).
  - rewrite zoomedViewer_scale. lra.
  - unfold centredAtRest. rewrite zoomedViewer_scale. intros Hrest.
    apply isApproximatelyOne_true_iff in Hrest.
    rewrite Rabs_pos_eq in Hrest by lra. lra.
Defined.

(** X18.  During a pinch the scale follows the finger distance in one
    direction only: a larger distance never gives a smaller scale; with a
    snapshot scale within [1, 5], fingers at least as far apart as at the
    start keep the scale at or above the snapshot, and fingers at most as
    far apart keep it at or below. *)
Theorem pinch_scale_follows_distance (touchesA touchesB : list Touch) (v : Viewer) :
  List.length touchesA = 2%nat ->
  List.length touchesB = 2%nat ->
  initialDistance (touchState v) > 0 ->
  0 <= initialScale (zoomState v) ->
  let d0 := initialDistance (touchState v) in
  let s0 := initialScale (zoomState v) in
  let scaleA := scale (zoomState (handleTouchMove touchesA v)) in
  let scaleB := scale (zoomState (handleTouchMove touchesB v)) in
  (getTouchDistance touchesA <= getTouchDistance touchesB -> scaleA <= scaleB) /\
  (1 <= s0 <= 5 -> d0 <= getTouchDistance touchesA -> s0 <= scaleA) /\
  (1 <= s0 <= 5 -> getTouchDistance touchesA <= d0 -> scaleA <= s0).
Proof.
  intros HA HB Hpos Hs0 d0 s0 scaleA scaleB. subst scaleA scaleB.
  destruct (length_two touchesA HA) as (a1 & a2 & ->).
  destruct (length_two touchesB HB) as (b1 & b2 & ->).
  rewrite !handleTouchMove_two, !pinch_scale by exact Hpos.
  fold d0 s0.
  assert (forall p q : R, p <= q -> s0 * (p / d0) <= s0 * (q / d0)) as Hmono.
  { intros p q Hpq. apply Rmult_le_compat_l; [exact Hs0|].
    unfold Rdiv. apply Rmult_le_compat_r; [|exact Hpq].
    left. apply Rinv_0_lt_compat. exact Hpos. }
  assert (s0 * (d0 / d0) = s0) as Hunit by (field; unfold d0; lra).
  split; [intros Hle; apply clampScale_monotone, Hmono, Hle|].
  split.
  - intros Hrange Hle. rewrite <- (clampScale_inside s0 Hrange) at 1.
    apply clampScale_monotone. rewrite <- Hunit at 1. apply Hmono, Hle.
  - intros Hrange Hle. rewrite <- (clampScale_inside s0 Hrange) at 2.
    apply clampScale_monotone. rewrite <- Hunit at 2. apply Hmono, Hle.
Qed.

Lemma pinch_scale_follows_distance_witness :
  1 <= scale (zoomState (handleTouchMove [touchAt 50 100; touchAt 250 100]
                           pinchStarted)).
Proof.
  assert (initialDistance (touchState pinchStarted) > 0) as Hpos
    by (rewrite pinchStarted_distance; lra).
  assert (0 <= initialScale (zoomState pinchStarted)) as Hs0
    by (rewrite pinchStarted_zoomState; cbn; lra).
  destruct (pinch_scale_follows_distance
              [touchAt 50 100; touchAt 250 100]
              [touchAt 50 100; touchAt 250 100] pinchStarted
              eq_refl eq_refl Hpos Hs0) as (_ & Hup & _).
  rewrite pinchStarted_zoomState in Hup. cbn [initialScale zoomState0] in Hup.
  apply Hup; [lra|].
  rewrite pinchStarted_distance, spread_distance. lra.
Defined.

(** X19.  Panning depends on where the finger is, not on how it got
    there: while the scale exceeds 1, a one-contact move to a point gives
    the same offsets, scale and last centre whether or not another
    one-contact move came before it. *)
Theorem pan_is_path_independent (touch1 touch2 : Touch) (v : Viewer) :
  scale (zoomState v) > 1 ->
  let direct := handleTouchMove [touch2] v in
  let via := handleTouchMove [touch2] (handleTouchMove [touch1] v) in
  x (zoomState via) = x (zoomState direct) /\
  y (zoomState via) = y (zoomState direct) /\
  scale (zoomState via) = scale (zoomState direct) /\
  lastCenterX (touchState via) = lastCenterX (touchState direct) /\
  lastCenterY (touchState via) = lastCenterY (touchState direct).
Proof.
  intros Hgt direct via. subst direct via.
  rewrite (handleTouchMove_one_zoomed touch1 v) by exact Hgt.
  rewrite (handleTouchMove_one_zoomed touch2 v) by exact Hgt.
  rewrite (handleTouchMove_one_zoomed touch2 (pan touch1 v))
    by (rewrite pan_scale; exact Hgt).
  unfold pan. cbn.
  split; [field; lra|]. split; [field; lra|]. repeat split.
Qed.

Lemma pan_is_path_independent_witness :
  x (zoomState (handleTouchMove [touchAt 170 100]
                  (handleTouchMove [touchAt 0 0] zoomedViewer)))
  = x (zoomState (handleTouchMove [touchAt 170 100] zoomedViewer)).
Proof.
  apply (pan_is_path_independent (touchAt 0 0) (touchAt 170 100) zoomedViewer).
  rewrite zoomedViewer_scale. lra.
Defined.

(** ** The click on a page image *)

Lemma findIndex_found (target : Node) (images : list Node) (el : Node) :
  js_index images (findIndex (Nat.eqb target) images) = Some el -> el = target.
Proof.
  unfold findIndex.
  destruct (in_dec Nat.eq_dec target images) as [Hin | Hnot].
  - destruct (findIndex_from_present target images 0 Hin) as (k & Hk & Hnth).
    rewrite Hk, Z.add_0_l, js_index_of_nat, Hnth. congruence.
  - rewrite (findIndex_from_absent target images 0 Hnot). discriminate.
Qed.

(** X20.  The document click listener ignores a click exactly when the
    target is not an [IMG] or lacks the URL attribute.  When it opens the
    viewer, the current index is a position of the clicked element among
    the selected images, the source is the clicked element's own URL, the
    zoom is reset and rendered, the viewer is shown with the keyboard
    listener attached, the touch state is as it was, and the listeners
    that were pending on the image are all still registered, followed by
    the new fade-in cleanup. *)
Theorem click_opens_the_clicked_image
        (selectorMatches : Document -> string -> Node -> bool)
        (config : Config) (doc : Document)
        (ts : TouchState) (zs : ZoomState) (image : ImageElement)
        (pending : list Listener) (target : Node) :
  let images := querySelectorAll selectorMatches doc (imageSelector config) in
  let outcome :=
    onDocumentClick selectorMatches config doc ts zs image pending target in
  (outcome = None <->
   tagName doc target <> "IMG"%string \/
   hasAttribute doc target (imageUrlAttribute config) = false) /\
  (forall v : Viewer,
      outcome = Some (Normal v) ->
      js_index images (currentIndex v) = Some target /\
      src (lightboxImage v) = getAttribute doc target (imageUrlAttribute config) /\
      scale (zoomState v) = 1 /\ x (zoomState v) = 0 /\ y (zoomState v) = 0 /\
      transform (lightboxImage v)
      = Some {| transform_scale := 1; translate_x := 0; translate_y := 0 |} /\
      displayed v = true /\
      keydownAttached v = true /\
      animationend v = pending ++ [FadeInCleanup] /\
      touchState v = ts).
Proof.
  intros images outcome. subst outcome. unfold onDocumentClick.
  fold images.
  destruct (String.eqb_spec (tagName doc target) "IMG") as [Htag | Htag];
    cbn [negb orb].
  2: { split; [split; [intros _; left; exact Htag | reflexivity]
              | intros v Hv; discriminate Hv]. }
  destruct (hasAttribute doc target (imageUrlAttribute config)) eqn:Hattr;
    cbn [negb].
  2: { split; [split; [intros _; right; reflexivity | reflexivity]
              | intros v Hv; discriminate Hv]. }
  split.
  { split; [discriminate|]. intros [Hno | Hno]; [contradiction | discriminate]. }
  intros v Hv. injection Hv as Hv. unfold openViewer in Hv.
  destruct (js_index images (findIndex (Nat.eqb target) images)) as [el|] eqn:Hel;
    [|discriminate].
  pose proof (findIndex_found target images el Hel) as ->.
  injection Hv as <-. cbn. repeat split. exact Hel.
Qed.

Lemma click_opens_the_clicked_image_witness :
  exists v : Viewer,
    onDocumentClick sampleMatches defaultConfig galleryPage
      touchState0 zoomState0 lightboxImage0 [HandleFade (Some "full.jpg"%string)]
      3%nat = Some (Normal v) /\
    src (lightboxImage v) = Some "other.jpg"%string /\
    animationend v = [HandleFade (Some "full.jpg"%string); FadeInCleanup].
Proof.
  eexists. split; [reflexivity|].
  destruct (click_opens_the_clicked_image sampleMatches defaultConfig galleryPage
              touchState0 zoomState0 lightboxImage0
              [HandleFade (Some "full.jpg"%string)] 3%nat) as [_ Hopen].
  destruct (Hopen _ eq_refl)
    as (_ & Hsrc & _ & _ & _ & _ & _ & _ & Hpending & _).
  split; [rewrite Hsrc; reflexivity | exact Hpending].
Defined.

(** ** The arrow keys *)

(** X21.  While the keyboard listener is attached and the index is inside
    the gallery, the left arrow stores [(currentIndex - 1) mod count] and
    the right arrow [(currentIndex + 1) mod count], each recording one
    navigation and asking for the default action to be prevented; one
    arrow after the other stores the starting index again. *)
Theorem arrow_keys_step_the_index (config : Config) (doc : Document)
        (images : list Node) (v : Viewer) :
  keydownAttached v = true ->
  (0 <= currentIndex v < count images)%Z ->
  let left := dispatch config doc images v (KeyDown "ArrowLeft") in
  let right := dispatch config doc images v (KeyDown "ArrowRight") in
  currentIndex left = ((currentIndex v - 1) mod count images)%Z /\
  currentIndex right = ((currentIndex v + 1) mod count images)%Z /\
  trace left = trace v ++ [Navigate (currentIndex v - 1); PreventDefault] /\
  trace right = trace v ++ [Navigate (currentIndex v + 1); PreventDefault] /\
  keydownAttached left = true /\
  keydownAttached right = true /\
  currentIndex (dispatch config doc images left (KeyDown "ArrowRight"))
  = currentIndex v /\
  currentIndex (dispatch config doc images right (KeyDown "ArrowLeft"))
  = currentIndex v.
Proof.
  intros Hattached Hidx.
  assert (0 < count images)%Z as Hn by lia.
  assert (forall (u : Viewer) (key : string) (direction : Z),
             keydownAttached u = true ->
             (0 <= currentIndex u < count images)%Z ->
             (key = "ArrowLeft"%string /\ direction = (-1)%Z) \/
             (key = "ArrowRight"%string /\ direction = 1%Z) ->
             let u' := dispatch config doc images u (KeyDown key) in
             currentIndex u'
             = ((currentIndex u + direction) mod count images)%Z /\
             trace u'
             = trace u ++ [Navigate (currentIndex u + direction); PreventDefault] /\
             keydownAttached u' = true) as Hstep.
  { intros u key direction Hu Hui Hkey u'. subst u'. cbn [dispatch]. rewrite Hu.
    assert (handleKeyboardNav config doc images key u
            = match navigateToImage config doc images
                      (currentIndex u + direction) u with
              | Normal w => Normal (emit PreventDefault w)
              | Abrupt e w => Abrupt e w
              end) as ->
      by (destruct Hkey as [[-> ->] | [-> ->]]; reflexivity).
    destruct (navigateToImage_effect config doc images
                (currentIndex u + direction) u)
      as (image & w & Hnav & _ & Hcur & _ & _ & _ & _ & _ & _ & _ & Hkd & Htr);
      [lia | lia |].
    rewrite Hnav. cbn [after currentIndex trace keydownAttached emit].
    rewrite Hcur, Htr, Hkd, <- app_assoc.
    split; [|split; [reflexivity | exact Hu]].
    rewrite Z.rem_mod_nonneg by lia.
    replace (currentIndex u + direction + count images)%Z
      with (currentIndex u + direction + 1 * count images)%Z by lia.
    apply Z.mod_add. lia. }
  cbv zeta.
  destruct (Hstep v "ArrowLeft"%string (-1)%Z Hattached Hidx) as (L1 & L2 & L3);
    [left; auto|].
  destruct (Hstep v "ArrowRight"%string 1%Z Hattached Hidx) as (R1 & R2 & R3);
    [right; auto|].
  cbv zeta in L1, L2, L3, R1, R2, R3.
  split; [exact L1|]. split; [exact R1|].
  split; [exact L2|]. split; [exact R2|].
  split; [exact L3|]. split; [exact R3|].
  split.
  - destruct (Hstep (dispatch config doc images v (KeyDown "ArrowLeft"))
                "ArrowRight"%string 1%Z L3) as (B1 & _);
      [rewrite L1; apply Z.mod_pos_bound, Hn | right; auto|].
    cbv zeta in B1. rewrite B1, L1, Zplus_mod_idemp_l.
    replace (currentIndex v + -1 + 1)%Z with (currentIndex v) by lia.
    apply Z.mod_small, Hidx.
  - destruct (Hstep (dispatch config doc images v (KeyDown "ArrowRight"))
                "ArrowLeft"%string (-1)%Z R3) as (B1 & _);
      [rewrite R1; apply Z.mod_pos_bound, Hn | left; auto|].
    cbv zeta in B1. rewrite B1, R1, Zplus_mod_idemp_l.
    replace (currentIndex v + 1 + -1)%Z with (currentIndex v) by lia.
    apply Z.mod_small, Hidx.
Qed.

Lemma arrow_keys_step_the_index_witness :
  currentIndex (dispatch defaultConfig galleryPage galleryImages viewer0
                  (KeyDown "ArrowLeft")) = 2%Z.
Proof.
  destruct (arrow_keys_step_the_index defaultConfig galleryPage galleryImages
              viewer0 eq_refl) as (Hleft & _).
  - cbn. lia.
  - rewrite Hleft. reflexivity.
Defined.
